(** * Block move events: replay, serialization and location capture

    A shallow embedding of the class [BlockMove] of Blockly's event
    model (core/events, module Blockly.Events.BlockMove) together with
    the collaborators it calls into: the workspace block database, block
    connections, and the JavaScript primitives used by the JSON encoding
    ([Math.round], template literals, [String.prototype.split],
    [Number]). *)

From Stdlib Require Import ZArith QArith Qcanon Qround Lqa String Ascii List.
From Stdlib Require Import Decimal DecimalString DecimalPos DecimalN DecimalZ.
From stdpp Require Import base option list strings gmap fin_maps.

Local Open Scope string_scope.
Local Open Scope Z_scope.

(** ** JavaScript numbers

    A number is either [NaN] or a finite value.  Finite values are kept
    as exact canonical rationals, so arithmetic carries no rounding
    error; infinities are outside the model. *)
Module Js.

Inductive number : Type :=
  | NaN
  | Fin (q : Qc).

#[global] Instance number_eq_dec : EqDecision number.
Proof. solve_decision. Defined.

Definition of_Z (z : Z) : number := Fin (Qc_of_Z z).


(** [a + b] and [a - b] on numbers; [NaN] is absorbing. *)
Definition add (a b : number) : number :=
  match a, b with
  | Fin p, Fin q => Fin (p + q)%Qc
  | _, _ => NaN
  end.

Definition sub (a b : number) : number :=
  match a, b with
  | Fin p, Fin q => Fin (p - q)%Qc
  | _, _ => NaN
  end.

(** [Math.round]: the nearest integer, ties towards +infinity.  The
    result is always integral, which the type records: [None] is
    [NaN]. *)
Definition Math_round (n : number) : option Z :=
  match n with
  | NaN => None
  | Fin q => Some (Qfloor (this q + (1 # 2)))
  end.

(** The number an integral [Math.round] result denotes. *)
Definition of_rounded (r : option Z) : number :=
  match r with None => NaN | Some z => of_Z z end.

(** [ToString] applied to the result of [Math.round], as a template
    literal does: decimal digits with a leading minus sign for negative
    values, and the text NaN. *)
Definition ToString (r : option Z) : string :=
  match r with
  | None => "NaN"
  | Some z => NilZero.string_of_int (Z.to_int z)
  end.

(** *** Strings *)

(** ASCII members of [StrWhiteSpaceChar]: TAB, LF, VT, FF, CR, SP. *)
Definition isWhiteSpace (c : ascii) : bool :=
  match nat_of_ascii c with
  | 9%nat | 10%nat | 11%nat | 12%nat | 13%nat | 32%nat => true
  | _ => false
  end.

Fixpoint trimStart (s : string) : string :=
  match s with
  | EmptyString => EmptyString
  | String c s' => if isWhiteSpace c then trimStart s' else s
  end.

Fixpoint trimEnd (s : string) : string :=
  match s with
  | EmptyString => EmptyString
  | String c s' =>
      match trimEnd s' with
      | EmptyString => if isWhiteSpace c then EmptyString else String c EmptyString
      | t => String c t
      end
  end.

Definition trim (s : string) : string := trimEnd (trimStart s).

(** [s.split(',')]: the pieces between commas; never empty. *)
Fixpoint split_comma (s : string) : list string :=
  match s with
  | EmptyString => [EmptyString]
  | String c s' =>
      if Ascii.eqb c "," then EmptyString :: split_comma s'
      else match split_comma s' with
           | h :: t => String c h :: t
           | [] => [String c EmptyString]
           end
  end.

(** Truthiness of a string value: [undefined] and the empty string are
    falsy. *)
Definition truthy (o : option string) : bool :=
  match o with
  | Some (String _ _) => true
  | _ => false
  end.

(** *** [Number(string)] *)

Definition digit_of_ascii (c : ascii) : option (uint -> uint) :=
  match nat_of_ascii c with
  | 48%nat => Some D0 | 49%nat => Some D1 | 50%nat => Some D2
  | 51%nat => Some D3 | 52%nat => Some D4 | 53%nat => Some D5
  | 54%nat => Some D6 | 55%nat => Some D7 | 56%nat => Some D8
  | 57%nat => Some D9
  | _ => None
  end.

(** The longest prefix of decimal digits, and what follows it. *)
Fixpoint digits (s : string) : uint * string :=
  match s with
  | EmptyString => (Nil, EmptyString)
  | String c s' =>
      match digit_of_ascii c with
      | Some d => let (u, r) := digits s' in (d u, r)
      | None => (Nil, s)
      end
  end.

Definition is_nil (u : uint) : bool :=
  match u with Nil => true | _ => false end.

(** Mathematical value of [i.f] times ten to the [e]. *)
Definition decimal_value (i f : uint) (e : Z) : Q :=
  ((inject_Z (Z.of_N (N.of_uint i))
    + inject_Z (Z.of_N (N.of_uint f)) / inject_Z (10 ^ Z.of_nat (nb_digits f)))
   * (inject_Z 10) ^ e)%Q.

(** [ExponentPart]: e or E, an optional sign, at least one digit, and
    nothing after it. *)
Definition exponent_part (s : string) : option Z :=
  match s with
  | EmptyString => Some 0
  | String c r =>
      if Ascii.eqb c "e" || Ascii.eqb c "E" then
        let '(neg, r') :=
          match r with
          | String s' r' =>
              if Ascii.eqb s' "-" then (true, r')
              else if Ascii.eqb s' "+" then (false, r')
              else (false, r)
          | EmptyString => (false, r)
          end in
        match digits r' with
        | (u, EmptyString) =>
            if is_nil u then None
            else let n := Z.of_N (N.of_uint u) in Some (if neg then - n else n)
        | _ => None
        end
      else None
  end.

(** [StrUnsignedDecimalLiteral] without the Infinity literal. *)
Definition unsigned_decimal (s : string) : option Q :=
  let (i, r1) := digits s in
  let (f, r2) :=
    match r1 with
    | String c r => if Ascii.eqb c "." then digits r else (Nil, r1)
    | EmptyString => (Nil, r1)
    end in
  if is_nil i && is_nil f then None
  else match exponent_part r2 with
       | Some e => Some (decimal_value i f e)
       | None => None
       end.

(** [StringToNumber] on decimal literals: surrounding white space is
    dropped, the empty string is 0, an optional sign precedes the
    digits.  Hexadecimal, octal and binary literals and Infinity are not
    covered and read as [NaN]. *)
Definition StringToNumber (s : string) : number :=
  match trim s with
  | EmptyString => of_Z 0
  | String c r as t =>
      let '(neg, body) :=
        if Ascii.eqb c "-" then (true, r)
        else if Ascii.eqb c "+" then (false, r)
        else (false, t) in
      match unsigned_decimal body with
      | Some q => Fin (Q2Qc (if neg then - q else q)%Q)
      | None => NaN
      end
  end.

(** [Number(v)] for [v] a string or [undefined]. *)
Definition Number (v : option string) : number :=
  match v with
  | None => NaN
  | Some s => StringToNumber s
  end.

End Js.

(** ** The live document

    Blocks, their connections and the workspace block database, as the
    event code sees them through [workspace.getBlockById],
    [block.getParent], [block.unplug], [block.moveBy] and
    [connection.connect].  The classes [Block], [Input], [Connection],
    [Workspace] and [Coordinate] and the enum [ConnectionType] are
    imported by the event code from files that are not part of the
    sources at hand; the spec names them only as the live-document
    collaborator ([getEntityById], [getParentOf], [connect],
    [disconnect], [setPosition]).  They are modelled on a headless
    workspace: a block keeps its own coordinate, connecting and
    disconnecting change the child's link only, and a block displaced
    from a connection by [connect] becomes a parentless block. *)

(** Modelled from the spec: the enum [ConnectionType]
    (core/connection_type.ts), the four kinds of connection. *)
Inductive ConnectionType : Type :=
  | INPUT_VALUE
  | OUTPUT_VALUE
  | NEXT_STATEMENT
  | PREVIOUS_STATEMENT.

#[global] Instance ConnectionType_eq_dec : EqDecision ConnectionType.
Proof. solve_decision. Defined.

(** Modelled from the spec: the class [Coordinate]
    (core/utils/coordinate.ts), an absolute position. *)
Record Coordinate : Type := mkCoordinate {
  x : Js.number;
  y : Js.number
}.

#[global] Instance Coordinate_eq_dec : EqDecision Coordinate.
Proof. solve_decision. Defined.

(** Modelled from the spec: the class [Input] (core/input.ts), a named
    connection point of a block: its name and the type of its connection
    ([None] for a dummy input, which has no connection). *)
Record Input : Type := mkInput {
  name : string;
  connection : option ConnectionType
}.

#[global] Instance Input_eq_dec : EqDecision Input.
Proof. solve_decision. Defined.

(** Which of a block's own connections ties it to its parent. *)
Inductive Side : Type := ViaOutput | ViaPrevious.

#[global] Instance Side_eq_dec : EqDecision Side.
Proof. solve_decision. Defined.

(** The connection on the parent a child sits in: a named input, or the
    parent's next connection. *)
Inductive Slot : Type :=
  | InputSlot (input : string)
  | NextSlot.

#[global] Instance Slot_eq_dec : EqDecision Slot.
Proof. solve_decision. Defined.

(** An established connection, seen from the child. *)
Record Link : Type := mkLink {
  via : Side;
  parent : string;
  slot : Slot
}.

#[global] Instance Link_eq_dec : EqDecision Link.
Proof. solve_decision. Defined.

(** Modelled from the spec: the class [Block] (core/block.ts), as far as
    the event reads it: its id, whether it is a shadow, which of the
    output, previous and next connections it has, its inputs, its link to
    a parent and its coordinate. *)
Record Block : Type := mkBlock {
  id : string;
  shadow : bool;
  hasOutput : bool;
  hasPrevious : bool;
  hasNext : bool;
  inputList : list Input;
  superior : option Link;
  xy_ : Coordinate
}.

#[global] Instance Block_eq_dec : EqDecision Block.
Proof. solve_decision. Defined.

(** Modelled from the spec: the class [Connection] (core/connection.ts),
    a connection object: the block that owns it (by database key), its
    type, and for an input connection the input it belongs to. *)
Record Connection : Type := mkConnection {
  sourceBlock : string;
  type : ConnectionType;
  parentInput : option string
}.

#[global] Instance Connection_eq_dec : EqDecision Connection.
Proof. solve_decision. Defined.

(** Modelled from the spec: the class [Workspace] (core/workspace.ts),
    the live document: its id and the block database keyed by block id;
    with it, the warnings written to the console so far (oldest
    first). *)
Record Workspace : Type := mkWorkspace {
  wsId : string;
  blockDB : gmap string Block;
  console : list string
}.

Definition set_blockDB (db : gmap string Block) (w : Workspace) : Workspace :=
  {| wsId := wsId w; blockDB := db; console := console w |}.

Definition set_superior (l : option Link) (b : Block) : Block :=
  {| id := id b; shadow := shadow b; hasOutput := hasOutput b;
     hasPrevious := hasPrevious b; hasNext := hasNext b;
     inputList := inputList b; superior := l; xy_ := xy_ b |}.

Definition set_xy (c : Coordinate) (b : Block) : Block :=
  {| id := id b; shadow := shadow b; hasOutput := hasOutput b;
     hasPrevious := hasPrevious b; hasNext := hasNext b;
     inputList := inputList b; superior := superior b; xy_ := c |}.

(** *** Effects

    A computation reads and updates the workspace and either completes
    normally or throws; the workspace changes made before a throw
    persist. *)
Inductive Completion (A : Type) : Type :=
  | Normal (a : A)
  | Throw (msg : string).
Arguments Normal {A} a.
Arguments Throw {A} msg.

Definition M (A : Type) : Type := Workspace -> Completion A * Workspace.

#[global] Instance M_ret : MRet M := fun A (a : A) w => (Normal a, w).

#[global] Instance M_bind : MBind M := fun A B (k : A -> M B) (m : M A) w =>
  match m w with
  | (Normal a, w') => k a w'
  | (Throw msg, w') => (Throw msg, w')
  end.

Definition throw {A} (msg : string) : M A := fun w => (Throw msg, w).

Definition console_warn (msg : string) : M unit :=
  fun w => (Normal tt,
            {| wsId := wsId w; blockDB := blockDB w;
               console := console w ++ [msg] |}).

Definition modify_blocks (f : gmap string Block -> gmap string Block) : M unit :=
  fun w => (Normal tt, set_blockDB (f (blockDB w)) w).

(** Reading a property of a live block through a reference to it. *)
Definition read {A} (ref : string) (f : Block -> A) : M A :=
  fun w => match blockDB w !! ref with
           | Some b => (Normal (f b), w)
           | None => (Throw "TypeError: block reference is stale", w)
           end.

(** Modelled from the spec: [workspace.getBlockById(id)]
    ([getEntityById]), a reference to the block, or null. *)
Definition getBlockById (i : string) : M (option string) :=
  fun w => (Normal (match blockDB w !! i with Some _ => Some i | None => None end), w).

(** *** Block and connection primitives

    Connection type checks beyond the pairing of connection types, and
    cycle checks, are not modelled. *)

(** Does the block sit in connection [s] of block [p]? *)
Definition targets (p : string) (s : Slot) (b : Block) : bool :=
  match superior b with
  | Some l => bool_decide (parent l = p) && bool_decide (slot l = s)
  | None => false
  end.

(** Modelled from the spec: [block.getParent()] ([getParentOf]), a
    reference to the parent block, or null. *)
Definition getParent (block : string) : M (option string) :=
  read block (fun b => parent <$> superior b).

(** Modelled from the spec: [block.unplug()] ([disconnect]), which
    disconnects the block from its parent. *)
Definition unplug (block : string) : M unit :=
  modify_blocks (alter (set_superior None) block).

(** Modelled from the spec: [block.getRelativeToSurfaceXY()], the
    block's coordinate. *)
Definition getRelativeToSurfaceXY (block : string) : M Coordinate :=
  read block xy_.

(** Modelled from the spec: [block.moveBy(dx, dy)] ([setPosition]),
    which translates the block's coordinate, as the sibling
    [WorkspaceCommentSvg.moveBy] does with [xy.x + dx], [xy.y + dy]. *)
Definition moveBy (block : string) (dx dy : Js.number) : M unit :=
  modify_blocks
    (alter (fun b => set_xy (mkCoordinate (Js.add (x (xy_ b)) dx)
                                          (Js.add (y (xy_ b)) dy)) b) block).

(** Modelled from the spec: the fields [block.outputConnection],
    [block.previousConnection] and [block.nextConnection], each a
    connection or null. *)
Definition outputConnection (block : string) : M (option Connection) :=
  read block (fun b =>
    if hasOutput b then Some (mkConnection block OUTPUT_VALUE None) else None).

Definition previousConnection (block : string) : M (option Connection) :=
  read block (fun b =>
    if hasPrevious b then Some (mkConnection block PREVIOUS_STATEMENT None) else None).

Definition nextConnection (block : string) : M (option Connection) :=
  read block (fun b =>
    if hasNext b then Some (mkConnection block NEXT_STATEMENT None) else None).

(** Modelled from the spec: [block.getInput(name)], the first input with
    that name, or null. *)
Definition findInput (nm : string) (l : list Input) : option Input :=
  List.find (fun i => bool_decide (name i = nm)) l.

Definition getInput (block : string) (nm : string) : M (option Input) :=
  read block (fun b => findInput nm (inputList b)).

(** Modelled from the spec: the field [input.connection] of an input of
    [block]. *)
Definition inputConnection (block : string) (i : Input) : option Connection :=
  (fun ty => mkConnection block ty (Some (name i))) <$> connection i.

(** Modelled from the spec: [parent.getInputWithBlock(block)], the input
    of [parent] whose connection holds [block], or null. *)
Definition getInputWithBlock (parentBlock block : string) : M (option Input) :=
  b ← read block (fun b => b);
  read parentBlock (fun p =>
    List.find (fun i => match connection i with
                        | Some _ => targets parentBlock (InputSlot (name i)) b
                        | None => false
                        end) (inputList p)).

Definition slot_of (c : Connection) : Slot :=
  match parentInput c with
  | Some n => InputSlot n
  | None => NextSlot
  end.

(** Is the block attached to a parent by this one of its connections? *)
Definition linkedBy (s : Side) (b : Block) : bool :=
  match superior b with
  | Some l => bool_decide (via l = s)
  | None => false
  end.

(** Modelled from the spec: [connection.isConnected()]. *)
Definition isConnected (c : Connection) : M bool :=
  fun w =>
    (Normal
       match type c with
       | OUTPUT_VALUE =>
           match blockDB w !! sourceBlock c with
           | Some b => linkedBy ViaOutput b
           | None => false
           end
       | PREVIOUS_STATEMENT =>
           match blockDB w !! sourceBlock c with
           | Some b => linkedBy ViaPrevious b
           | None => false
           end
       | _ =>
           bool_decide
             (map_Exists (fun _ b => targets (sourceBlock c) (slot_of c) b = true)
                         (blockDB w))
       end, w).

(** The side of a child that a connection of this type is, if any. *)
Definition side_of (t : ConnectionType) : option Side :=
  match t with
  | OUTPUT_VALUE => Some ViaOutput
  | PREVIOUS_STATEMENT => Some ViaPrevious
  | _ => None
  end.

(** Outputs plug into value inputs, previous connections into statement
    inputs and next connections. *)
Definition accepts (parentSide : ConnectionType) (s : Side) : bool :=
  match s, parentSide with
  | ViaOutput, INPUT_VALUE => true
  | ViaPrevious, NEXT_STATEMENT => true
  | _, _ => false
  end.

Definition detach_from (p : string) (s : Slot) (b : Block) : Block :=
  if targets p s b then set_superior None b else b.

(** Modelled from the spec: [this.connect(other)] ([connect]) with [this]
    a connection of the child and [other] a connection of the parent.
    Nothing happens unless the two types pair up and the blocks differ; a
    block already sitting in [other] is displaced. *)
Definition connect (this other : Connection) : M unit :=
  match side_of (type this) with
  | Some s =>
      if accepts (type other) s
         && negb (bool_decide (sourceBlock this = sourceBlock other))
      then
        modify_blocks (fun db =>
          alter (set_superior
                   (Some (mkLink s (sourceBlock other) (slot_of other))))
                (sourceBlock this)
                (detach_from (sourceBlock other) (slot_of other) <$> db))
      else mret tt
  | None => mret tt
  end.

(** ** The [BlockMove] event *)

Record BlockLocation : Type := mkBlockLocation {
  parentId : option string;
  inputName : option string;
  coordinate : option Coordinate
}.

Record BlockMove : Type := mkBlockMove {
  isBlank : bool;
  workspaceId : option string;
  group : string;
  recordUndo : bool;
  blockId : option string;
  oldParentId : option string;
  oldInputName : option string;
  oldCoordinate : option Coordinate;
  newParentId : option string;
  newInputName : option string;
  newCoordinate : option Coordinate
}.

#[global] Instance BlockMove_eq_dec : EqDecision BlockMove.
Proof. solve_decision. Defined.

(** Modelled from the spec: the kind tag of block move events,
    [eventUtils.BLOCK_MOVE], is declared in events/utils.ts, which is
    not part of the sources at hand. *)
Definition BLOCK_MOVE : string := "move".

(** The process-wide event context read by the event constructors
    ([eventUtils.getGroup], [eventUtils.getRecordUndo]). *)
Record EventContext : Type := mkEventContext {
  getGroup : string;
  getRecordUndo : bool
}.

(** Modelled from the spec: the constructors of [Abstract] and
    [BlockBase] (events_abstract.ts, events_block_base.ts) are not part
    of the sources at hand.  An event starts with the current group and
    record-undo flag, is blank unless built from a block, and takes its
    block id and workspace id from that block. *)
Definition BlockBase_new (ctx : EventContext) (ws : string)
    (opt_block : option Block) : BlockMove :=
  {| isBlank := match opt_block with Some _ => false | None => true end;
     workspaceId := match opt_block with Some _ => Some ws | None => None end;
     group := getGroup ctx;
     recordUndo := getRecordUndo ctx;
     blockId := id <$> opt_block;
     oldParentId := None; oldInputName := None; oldCoordinate := None;
     newParentId := None; newInputName := None; newCoordinate := None |}.

(** Modelled from the spec: [Abstract.getEventWorkspace_] resolves the
    owning workspace from [workspaceId] and throws when there is none. *)
Definition getEventWorkspace_ (this : BlockMove) : M unit :=
  fun w =>
    if Js.truthy (workspaceId this) && bool_decide (workspaceId this = Some (wsId w))
    then (Normal tt, w)
    else (Throw "Workspace is null. Event must have been generated from real Blockly events.", w).

Definition set_recordUndo (r : bool) (e : BlockMove) : BlockMove :=
  {| isBlank := isBlank e; workspaceId := workspaceId e; group := group e;
     recordUndo := r; blockId := blockId e;
     oldParentId := oldParentId e; oldInputName := oldInputName e;
     oldCoordinate := oldCoordinate e;
     newParentId := newParentId e; newInputName := newInputName e;
     newCoordinate := newCoordinate e |}.

Definition set_old (l : BlockLocation) (e : BlockMove) : BlockMove :=
  {| isBlank := isBlank e; workspaceId := workspaceId e; group := group e;
     recordUndo := recordUndo e; blockId := blockId e;
     oldParentId := parentId l; oldInputName := inputName l;
     oldCoordinate := coordinate l;
     newParentId := newParentId e; newInputName := newInputName e;
     newCoordinate := newCoordinate e |}.

Definition set_new (l : BlockLocation) (e : BlockMove) : BlockMove :=
  {| isBlank := isBlank e; workspaceId := workspaceId e; group := group e;
     recordUndo := recordUndo e; blockId := blockId e;
     oldParentId := oldParentId e; oldInputName := oldInputName e;
     oldCoordinate := oldCoordinate e;
     newParentId := parentId l; newInputName := inputName l;
     newCoordinate := coordinate l |}.

Definition blockIdUndefined : string :=
  "The block ID is undefined. Either pass a block to the constructor, or call fromJson".

(** [currentLocation_]: the parent id and input if the block is
    connected, or the XY location if disconnected. *)
Definition currentLocation_ (this : BlockMove) : M BlockLocation :=
  getEventWorkspace_ this;;
  match blockId this with
  | Some (String _ _ as blockId) =>
      block ← getBlockById blockId;
      match block with
      | None =>
          throw "The block associated with the block move event could not be found"
      | Some block =>
          parent ← getParent block;
          match parent with
          | Some parent =>
              pid ← read parent id;
              input ← getInputWithBlock parent block;
              mret {| parentId := Some pid;
                      inputName := name <$> input;
                      coordinate := None |}
          | None =>
              xy ← getRelativeToSurfaceXY block;
              mret {| parentId := None; inputName := None;
                      coordinate := Some xy |}
          end
      end
  | _ => throw blockIdUndefined
  end.

(** [new BlockMove(opt_block)]. *)
Definition constructor (ctx : EventContext) (opt_block : option Block)
    : M BlockMove :=
  fun w =>
    let this := BlockBase_new ctx (wsId w) opt_block in
    match opt_block with
    | None => (Normal this, w)
    | Some block =>
        let this := if shadow block then set_recordUndo false this else this in
        (location ← currentLocation_ this;
         mret (set_old location this)) w
    end.

(** [recordNew]: record the block's new location, after the move. *)
Definition recordNew (this : BlockMove) : M BlockMove :=
  location ← currentLocation_ this;
  mret (set_new location this).

(** Modelled from the spec: [Coordinate.equals] (utils/coordinate.ts) is
    not part of the sources at hand; it is coordinate equality, with
    undefined equal to undefined. *)
Definition Coordinate_equals (a b : option Coordinate) : bool :=
  match a, b with
  | None, None => true
  | Some a, Some b =>
      bool_decide (x a = x b) && bool_decide (y a = y b)
  | _, _ => false
  end.

(** [isNull]: does this event record no change of state? *)
Definition isNull (this : BlockMove) : bool :=
  bool_decide (oldParentId this = newParentId this)
  && bool_decide (oldInputName this = newInputName this)
  && Coordinate_equals (oldCoordinate this) (newCoordinate this).

(** *** [run] *)

(** The connection of the moved block that [run] reconnects: the output
    connection, unless there is none or the previous connection is
    connected. *)
Definition pickBlockConnection (output previous : option Connection)
    (previousIsConnected : bool) : option Connection :=
  match output with
  | None => previous
  | Some _ =>
      match previous with
      | Some _ => if previousIsConnected then previous else output
      | None => output
      end
  end.

Definition blockConnectionOf (block : string) : M (option Connection) :=
  output ← outputConnection block;
  previous ← previousConnection block;
  connected ← match previous with
              | Some p => isConnected p
              | None => mret false
              end;
  mret (pickBlockConnection output previous connected).

(** The connection of the parent that [run] connects to: that of the
    named input when an input name is given, else the parent's next
    connection when the block connects by its previous connection.
    [parentBlock] is undefined when no parent id was given. *)
Definition parentConnectionOf (parentBlock : option string)
    (inputName : option string) (connectionType : ConnectionType)
    : M (option Connection) :=
  match inputName with
  | Some (String _ _ as inputName) =>
      match parentBlock with
      | Some parentBlock =>
          input ← getInput parentBlock inputName;
          mret (input ≫= inputConnection parentBlock)
      | None => throw "TypeError: Cannot read properties of undefined (reading 'getInput')"
      end
  | _ =>
      if bool_decide (connectionType = PREVIOUS_STATEMENT) then
        match parentBlock with
        | Some parentBlock => nextConnection parentBlock
        | None => throw "TypeError: Cannot read properties of undefined (reading 'nextConnection')"
        end
      else mret None
  end.

Definition undefined_or (o : option string) : string :=
  match o with Some s => s | None => "undefined" end.

(** [if (block.getParent()) block.unplug()]. *)
Definition unplugIfConnected (block : string) : M unit :=
  parent ← getParent block;
  match parent with Some _ => unplug block | None => mret tt end.

(** The body of [run] once the block and its target parent are resolved:
    unplug, then move to the coordinate or reconnect. *)
Definition relocate (block : string) (parentBlock : option string)
    (inputName : option string) (coordinate : option Coordinate) : M unit :=
  unplugIfConnected block;;
  match coordinate with
  | Some coordinate =>
      xy ← getRelativeToSurfaceXY block;
      moveBy block (Js.sub (x coordinate) (x xy)) (Js.sub (y coordinate) (y xy))
  | None =>
      blockConnection ← blockConnectionOf block;
      match blockConnection with
      | None => throw "TypeError: Cannot read properties of null (reading 'type')"
      | Some blockConnection =>
          let connectionType := type blockConnection in
          parentConnection ← parentConnectionOf parentBlock inputName connectionType;
          match parentConnection with
          | Some parentConnection => connect blockConnection parentConnection
          | None =>
              console_warn ("Can't connect to non-existent input: "
                            +:+ undefined_or inputName)
          end
      end
  end.

(** [run(forward)]: run a move event, forward or backward (undo). *)
Definition run (this : BlockMove) (forward : bool) : M unit :=
  getEventWorkspace_ this;;
  match blockId this with
  | Some (String _ _ as blockId) =>
      block ← getBlockById blockId;
      match block with
      | None => console_warn ("Can't move non-existent block: " +:+ blockId)
      | Some block =>
          let parentId := if forward then newParentId this else oldParentId this in
          let inputName := if forward then newInputName this else oldInputName this in
          let coordinate := if forward then newCoordinate this else oldCoordinate this in
          match parentId with
          | Some (String _ _ as parentId) =>
              parentBlock ← getBlockById parentId;
              match parentBlock with
              | None =>
                  console_warn ("Can't connect to non-existent block: " +:+ parentId)
              | Some parentBlock =>
                  relocate block (Some parentBlock) inputName coordinate
              end
          | _ => relocate block None inputName coordinate
          end
      end
  | _ => throw blockIdUndefined
  end.

(** *** Serialization *)

(** A value stored under a key of the serialized form.  A key can be
    present and hold [undefined]. *)
Inductive JsValue : Type :=
  | JUndefined
  | JString (s : string)
  | JBoolean (b : bool).

#[global] Instance JsValue_eq_dec : EqDecision JsValue.
Proof. solve_decision. Defined.

Definition of_optional (o : option string) : JsValue :=
  match o with Some s => JString s | None => JUndefined end.

(** [json[key]] read as an optional string ([BlockMoveJson] types every
    field but [recordUndo] as [string | undefined]). *)
Definition get_string (json : gmap string JsValue) (key : string) : option string :=
  match json !! key with
  | Some (JString s) => Some s
  | _ => None
  end.

(** Modelled from the spec: [BlockBase.toJson] and [Abstract.toJson] are
    not part of the sources at hand.  They produce the kind tag, the
    group if non-empty, and the block id. *)
Definition super_toJson (this : BlockMove) : gmap string JsValue :=
  let json : gmap string JsValue := {[ "type" := JString BLOCK_MOVE ]} in
  let json := match group this with
              | String _ _ as g => <["group" := JString g]> json
              | EmptyString => json
              end in
  <["blockId" := of_optional (blockId this)]> json.

(** The text of a coordinate: both components rounded, separated by a
    comma and a space. *)
Definition encodeCoordinate (c : Coordinate) : string :=
  Js.ToString (Js.Math_round (x c)) +:+ ", " +:+ Js.ToString (Js.Math_round (y c)).

(** [toJson]: encode the event as JSON. *)
Definition toJson (this : BlockMove) : gmap string JsValue :=
  let json := super_toJson this in
  let json := <["oldParentId" := of_optional (oldParentId this)]> json in
  let json := <["oldInputName" := of_optional (oldInputName this)]> json in
  let json := match oldCoordinate this with
              | Some c => <["oldCoordinate" := JString (encodeCoordinate c)]> json
              | None => json
              end in
  let json := <["newParentId" := of_optional (newParentId this)]> json in
  let json := <["newInputName" := of_optional (newInputName this)]> json in
  let json := match newCoordinate this with
              | Some c => <["newCoordinate" := JString (encodeCoordinate c)]> json
              | None => json
              end in
  if negb (recordUndo this)
  then <["recordUndo" := JBoolean (recordUndo this)]> json
  else json.

(** Modelled from the spec: the static [BlockBase.fromJson] and
    [Abstract.fromJson] are not part of the sources at hand.  They mark
    the event as populated, and take the group and block id from the
    serialized form and the workspace id from the workspace. *)
Definition super_fromJson (json : gmap string JsValue) (workspace : string)
    (event : BlockMove) : BlockMove :=
  {| isBlank := false;
     workspaceId := Some workspace;
     group := match get_string json "group" with Some g => g | None => "" end;
     recordUndo := recordUndo event;
     blockId := get_string json "blockId";
     oldParentId := oldParentId event; oldInputName := oldInputName event;
     oldCoordinate := oldCoordinate event;
     newParentId := newParentId event; newInputName := newInputName event;
     newCoordinate := newCoordinate event |}.

(** The coordinate read back from [json[key]], or [fallback] when the
    key holds no non-empty string. *)
Definition decodeCoordinate (json : gmap string JsValue) (key : string)
    (fallback : option Coordinate) : option Coordinate :=
  match get_string json key with
  | Some (String _ _ as s) =>
      let xy := Js.split_comma s in
      Some (mkCoordinate (Js.Number (xy !! 0%nat)) (Js.Number (xy !! 1%nat)))
  | _ => fallback
  end.

(** The static [fromJson]: deserialize into [event], or into a blank
    event when none is given.  [recordUndo] is overwritten only when the
    key holds a boolean, the one type [BlockMoveJson] gives it. *)
Definition fromJson (ctx : EventContext) (json : gmap string JsValue)
    (workspace : string) (event : option BlockMove) : BlockMove :=
  let newEvent :=
    super_fromJson json workspace
      (match event with
       | Some e => e
       | None => BlockBase_new ctx workspace None
       end) in
  {| isBlank := isBlank newEvent;
     workspaceId := workspaceId newEvent;
     group := group newEvent;
     recordUndo := match json !! "recordUndo" with
                   | Some (JBoolean b) => b
                   | _ => recordUndo newEvent
                   end;
     blockId := blockId newEvent;
     oldParentId := get_string json "oldParentId";
     oldInputName := get_string json "oldInputName";
     oldCoordinate := decodeCoordinate json "oldCoordinate" (oldCoordinate newEvent);
     newParentId := get_string json "newParentId";
     newInputName := get_string json "newInputName";
     newCoordinate := decodeCoordinate json "newCoordinate" (newCoordinate newEvent) |}.

(** ** Well-formed workspaces

    The invariants the block database maintains: a block is stored under
    its own non-empty id; a connected block has a parent in the database
    other than itself, owns the connection it is attached by, and sits in
    a connection of the parent that exists and pairs with it; a block
    attached by its previous connection has no output connection. *)

Definition side_ok (b : Block) (s : Side) : bool :=
  match s with
  | ViaOutput => hasOutput b
  | ViaPrevious => hasPrevious b && negb (hasOutput b)
  end.

Definition slot_ok (p : Block) (l : Link) : bool :=
  match slot l with
  | InputSlot n =>
      Js.truthy (Some n)
      && match findInput n (inputList p) with
         | Some i =>
             match connection i with
             | Some ty => accepts ty (via l)
             | None => false
             end
         | None => false
         end
  | NextSlot => hasNext p && bool_decide (via l = ViaPrevious)
  end.

Definition link_ok (db : gmap string Block) (k : string) (b : Block) (l : Link) : bool :=
  negb (bool_decide (parent l = k))
  && side_ok b (via l)
  && match db !! parent l with
     | Some p => slot_ok p l
     | None => false
     end.

Definition block_ok (db : gmap string Block) (k : string) (b : Block) : bool :=
  bool_decide (id b = k)
  && Js.truthy (Some k)
  && match superior b with
     | Some l => link_ok db k b l
     | None => true
     end.

Definition wf (w : Workspace) : bool :=
  Js.truthy (Some (wsId w))
  && bool_decide (map_Forall (fun k b => block_ok (blockDB w) k b = true) (blockDB w)).

(** What [run] never changes in a block: everything but its link to a
    parent and its coordinate. *)
Definition shape (b : Block) : string * bool * (bool * bool * bool) * list Input :=
  (id b, shadow b, (hasOutput b, hasPrevious b, hasNext b), inputList b).

(** Two block records that differ at most in their link to a parent
    ([sameButLink]), or at most in their link and coordinate
    ([sameShape]). *)
Definition sameShape (b b' : Block) : Prop := shape b = shape b'.

Definition sameButLink (b b' : Block) : Prop :=
  shape b = shape b' /\ xy_ b = xy_ b'.

(** A computation preserves [R] when it keeps the workspace id and the
    set of blocks, and relates each block before to the block after. *)
Definition preserves {A} (R : Block -> Block -> Prop) (m : M A) : Prop :=
  forall w r w', m w = (r, w') ->
    wsId w' = wsId w
    /\ forall j, option_Forall2 R (blockDB w !! j) (blockDB w' !! j).

(** A block record after a step of [run], against the record [b] before
    it: the same shape, and a link that is gone, unchanged, or new and
    sound for the block database [db]. *)
Definition relinked (db : gmap string Block) (b b' : Block) : Prop :=
  shape b = shape b'
  /\ (superior b' = None
      \/ superior b' = superior b
      \/ exists l, superior b' = Some l /\ link_ok db (id b) b l = true).


(** The location [currentLocation_] reports for a block with this link
    and coordinate. *)
Definition locationOf (b : Block) : BlockLocation :=
  match superior b with
  | Some l =>
      {| parentId := Some (parent l);
         inputName := match slot l with
                      | InputSlot n => Some n
                      | NextSlot => None
                      end;
         coordinate := None |}
  | None =>
      {| parentId := None; inputName := None; coordinate := Some (xy_ b) |}
  end.

(** A defined coordinate whose components are integers or [NaN]: the
    values [Math.round] leaves unchanged. *)
Definition integral (n : Js.number) : Prop :=
  Js.of_rounded (Js.Math_round n) = n.

Definition integralCoordinate (c : option Coordinate) : Prop :=
  match c with
  | Some c => integral (x c) /\ integral (y c)
  | None => True
  end.

Definition rounded (c : Coordinate) : Coordinate :=
  mkCoordinate (Js.of_rounded (Js.Math_round (x c)))
               (Js.of_rounded (Js.Math_round (y c))).


Fixpoint all_chars (P : ascii -> bool) (s : string) : bool :=
  match s with
  | EmptyString => true
  | String c s' => P c && all_chars P s'
  end.

(** Characters that are neither white space nor a comma. *)
Definition text_char (c : ascii) : bool :=
  negb (Js.isWhiteSpace c) && negb (Ascii.eqb c ",").


(** ** Sample workspaces and events *)
Module Sample.

Definition at_ (a b : Z) : Coordinate := mkCoordinate (Js.of_Z a) (Js.of_Z b).

(** A parent block [P] with a value input [A], a statement input [DO]
    and a next connection; a value block [B] plugged into [A]; a free
    statement block [S]. *)
Definition P : Block :=
  mkBlock "P" false false true true
          [mkInput "A" (Some INPUT_VALUE); mkInput "DO" (Some NEXT_STATEMENT)]
          None (at_ 0 0).

Definition B : Block :=
  mkBlock "B" false true false false []
          (Some (mkLink ViaOutput "P" (InputSlot "A"))) (at_ 3 4).

Definition S : Block :=
  mkBlock "S" false false true true [] None (at_ 7 7).

(** A shadow statement block in [P]'s statement input [DO]. *)
Definition H : Block :=
  mkBlock "H" true false true true []
          (Some (mkLink ViaPrevious "P" (InputSlot "DO"))) (at_ 0 0).

Definition ws : Workspace :=
  mkWorkspace "ws" (list_to_map [("P", P); ("B", B); ("S", S); ("H", H)]) [].

Definition ctx : EventContext := mkEventContext "" true.

(** A blank event for a block, to be filled in field by field. *)
Definition event (block : string) : BlockMove :=
  mkBlockMove false (Some "ws") "" true (Some block) None None None None None None.

(** [B] moves out of [P]'s input [A] to (10, 10). *)
Definition unplugB : BlockMove :=
  mkBlockMove false (Some "ws") "" true (Some "B")
              (Some "P") (Some "A") None
              None None (Some (at_ 10 10)).


(** [S] moves from (7, 7) to (1/2, 0). *)
Definition halfS : BlockMove :=
  mkBlockMove false (Some "ws") "" true (Some "S")
              None None (Some (at_ 7 7))
              None None (Some (mkCoordinate (Js.Fin (Q2Qc (1 # 2))) (Js.of_Z 0))).

(** [S] moves from (7, 7) to below [P], on its next connection. *)
Definition plugS : BlockMove :=
  mkBlockMove false (Some "ws") "" true (Some "S")
              None None (Some (at_ 7 7))
              (Some "P") None None.

(** [B] is to be plugged into an input [P] does not have. *)
Definition plugNowhere : BlockMove :=
  mkBlockMove false (Some "ws") "" true (Some "B")
              (Some "P") (Some "A") None
              (Some "P") (Some "NOPE") None.

(** An event of the workspace that names no block. *)
Definition noBlock : BlockMove :=
  mkBlockMove true (Some "ws") "" true None None None None None None None.

(** [S] recorded at (10, 10) before and after, and at (10, 11) after. *)
Definition stay : BlockMove :=
  mkBlockMove false (Some "ws") "" true (Some "S")
              None None (Some (at_ 10 10))
              None None (Some (at_ 10 10)).

Definition nudge : BlockMove :=
  mkBlockMove false (Some "ws") "" true (Some "S")
              None None (Some (at_ 10 10))
              None None (Some (at_ 10 11)).

(** A block with both an output and a previous connection, free on the
    workspace next to [P]. *)
Definition Both : Block :=
  mkBlock "X" false true true false [] None (at_ 1 1).

Definition wsBoth : Workspace :=
  mkWorkspace "ws" (list_to_map [("P", P); ("X", Both)]) [].

Definition plugX : BlockMove :=
  mkBlockMove false (Some "ws") "" true (Some "X")
              None None (Some (at_ 1 1))
              (Some "P") (Some "A") None.

End Sample.

(** * Properties *)

(** ** Text of rounded numbers *)

Lemma uint_text d : all_chars text_char (NilEmpty.string_of_uint d) = true.
Proof. induction d; simpl; auto. Qed.

Lemma nz_uint_text d : all_chars text_char (NilZero.string_of_uint d) = true.
Proof. destruct d; try reflexivity; apply (uint_text (_ d)). Qed.

Lemma ToString_text r : all_chars text_char (Js.ToString r) = true.
Proof.
  destruct r as [z|]; [|reflexivity].
  unfold Js.ToString, NilZero.string_of_int.
  destruct (Z.to_int z) as [d|d]; [apply nz_uint_text|].
  change (text_char "-" && all_chars text_char (NilZero.string_of_uint d) = true).
  rewrite nz_uint_text. reflexivity.
Qed.

Lemma digits_uint d : Js.digits (NilEmpty.string_of_uint d) = (d, "").
Proof. induction d; simpl; [reflexivity | rewrite IHd; reflexivity ..]. Qed.

Lemma trimStart_text s : all_chars text_char s = true -> Js.trimStart s = s.
Proof.
  destruct s as [|c s]; simpl; [reflexivity|].
  unfold text_char. intros H. apply andb_prop in H as [H _].
  apply andb_prop in H as [H _]. apply negb_true_iff in H. rewrite H. reflexivity.
Qed.

Lemma trimEnd_text s : all_chars text_char s = true -> Js.trimEnd s = s.
Proof.
  induction s as [|c s IH]; simpl; [reflexivity|].
  intros H. apply andb_prop in H as [Hc Hs]. rewrite (IH Hs).
  destruct s; [|reflexivity].
  unfold text_char in Hc. apply andb_prop in Hc as [Hc _].
  apply negb_true_iff in Hc. rewrite Hc. reflexivity.
Qed.

Lemma trim_text s : all_chars text_char s = true -> Js.trim s = s.
Proof.
  intros H. unfold Js.trim. rewrite (trimStart_text s H). apply trimEnd_text, H.
Qed.

Lemma trim_space_text s :
  all_chars text_char s = true -> Js.trim (" " +:+ s) = s.
Proof.
  intros H. change (" " +:+ s) with (String " " s).
  unfold Js.trim. simpl. apply trim_text, H.
Qed.

Lemma split_comma_text s :
  all_chars text_char s = true -> Js.split_comma s = [s].
Proof.
  induction s as [|c s IH]; simpl; [reflexivity|].
  intros H. apply andb_prop in H as [Hc Hs].
  unfold text_char in Hc. apply andb_prop in Hc as [_ Hc].
  apply negb_true_iff in Hc. rewrite Hc, (IH Hs). reflexivity.
Qed.

Lemma split_comma_pair s t :
  all_chars text_char s = true -> all_chars text_char t = true ->
  Js.split_comma (s +:+ ", " +:+ t) = [s; " " +:+ t].
Proof.
  intros Hs Ht. induction s as [|c s IH].
  - change (Js.split_comma (String "," (String " " t)) = [""; String " " t]).
    simpl. rewrite (split_comma_text t Ht). reflexivity.
  - simpl in Hs. apply andb_prop in Hs as [Hc Hs].
    unfold text_char in Hc. apply andb_prop in Hc as [_ Hc].
    apply negb_true_iff in Hc.
    change (String c s +:+ ", " +:+ t) with (String c (s +:+ ", " +:+ t)).
    simpl. rewrite Hc, (IH Hs). reflexivity.
Qed.

(** ** Reading a rounded number back *)

Lemma decimal_value_int u :
  (Js.decimal_value u Nil 0 == inject_Z (Z.of_uint u))%Q.
Proof.
  unfold Js.decimal_value. simpl. unfold Z.of_uint.
  change (N.of_uint u) with (Pos.of_uint u).
  set (a := inject_Z (Z.of_N (Pos.of_uint u))).
  change ((a + inject_Z 0 / inject_Z 1) * 1 == a)%Q.
  unfold Qdiv. change (/ inject_Z 1)%Q with 1%Q. change (inject_Z 0) with 0%Q. ring.
Qed.

Lemma unsigned_decimal_uint u :
  u <> Nil ->
  Js.unsigned_decimal (NilZero.string_of_uint u) = Some (Js.decimal_value u Nil 0).
Proof.
  intros Hu. unfold Js.unsigned_decimal.
  assert (NilZero.string_of_uint u = NilEmpty.string_of_uint u) as ->
    by (destruct u; [congruence | reflexivity ..]).
  rewrite digits_uint. simpl.
  destruct u; [congruence | reflexivity ..].
Qed.

Lemma head_not_sign u s c :
  u <> Nil -> NilZero.string_of_uint u = String c s ->
  Ascii.eqb c "-" = false /\ Ascii.eqb c "+" = false.
Proof.
  intros Hu. destruct u; [congruence | simpl; intros [= <- _]; split; reflexivity ..].
Qed.

Lemma Qc_of_Z_eq (q : Q) z : (q == inject_Z z)%Q -> Q2Qc q = Qc_of_Z z.
Proof.
  intros H. apply Qc_is_canon. simpl. rewrite H. apply Qred_correct.
Qed.

Lemma StringToNumber_decimal z :
  Js.StringToNumber (NilZero.string_of_int (Z.to_int z)) = Js.of_Z z.
Proof.
  unfold Js.StringToNumber.
  rewrite trim_text by apply (ToString_text (Some z)).
  pose proof (DecimalZ.of_to z) as Hz.
  destruct z as [|p|p]; [vm_compute; f_equal; apply Qc_is_canon; reflexivity | |].
  - simpl in *.
    assert (Hn : Pos.to_uint p <> Nil) by apply DecimalPos.Unsigned.to_uint_nonnil.
    destruct (NilZero.string_of_uint (Pos.to_uint p)) as [|c s] eqn:E.
    { destruct (Pos.to_uint p); try discriminate; congruence. }
    destruct (head_not_sign _ _ _ Hn E) as [-> ->].
    rewrite <- E, (unsigned_decimal_uint _ Hn).
    unfold Js.of_Z. f_equal. apply Qc_of_Z_eq.
    rewrite decimal_value_int, Hz. reflexivity.
  - simpl in *.
    assert (Hn : Pos.to_uint p <> Nil) by apply DecimalPos.Unsigned.to_uint_nonnil.
    rewrite (unsigned_decimal_uint _ Hn).
    unfold Js.of_Z. f_equal. apply Qc_of_Z_eq.
    rewrite decimal_value_int.
    rewrite <- Hz. rewrite inject_Z_opp. reflexivity.
Qed.

Lemma Number_ToString r : Js.StringToNumber (Js.ToString r) = Js.of_rounded r.
Proof.
  destruct r as [z|]; [apply StringToNumber_decimal | reflexivity].
Qed.

Lemma Number_space_ToString r :
  Js.StringToNumber (" " +:+ Js.ToString r) = Js.of_rounded r.
Proof.
  rewrite <- Number_ToString. unfold Js.StringToNumber.
  rewrite trim_space_text, trim_text by apply ToString_text. reflexivity.
Qed.

(** [Math.round] yields the integer within one half of its argument,
    the upper one on a tie. *)
Lemma Math_round_nearest q z :
  Js.Math_round (Js.Fin q) = Some z ->
  (inject_Z z - (1 # 2) <= this q /\ this q < inject_Z z + (1 # 2))%Q.
Proof.
  unfold Js.Math_round. intros H.
  assert (Hz : z = Qfloor (this q + (1 # 2))) by congruence. clear H. subst z.
  pose proof (Qfloor_le (this q + (1 # 2))) as Hle.
  pose proof (Qlt_floor (this q + (1 # 2))) as Hlt.
  rewrite inject_Z_plus in Hlt. change (inject_Z 1) with 1%Q in Hlt.
  split; lra.
Qed.

(** The sample workspaces are well formed. *)
Lemma sample_wf : wf Sample.ws = true /\ wf Sample.wsBoth = true.
Proof. split; vm_compute; reflexivity. Qed.

(** ** Serialized form *)

Ltac json_lookup :=
  repeat first
    [ rewrite lookup_insert_eq
    | rewrite lookup_insert_ne by discriminate
    | rewrite lookup_singleton_ne by discriminate
    | rewrite lookup_singleton_eq ].

Lemma encodeCoordinate_split c :
  Js.split_comma (encodeCoordinate c)
  = [Js.ToString (Js.Math_round (x c)); " " +:+ Js.ToString (Js.Math_round (y c))].
Proof. apply split_comma_pair; apply ToString_text. Qed.

Lemma decode_encode json key c fallback :
  json !! key = Some (JString (encodeCoordinate c)) ->
  decodeCoordinate json key fallback = Some (rounded c).
Proof.
  intros H. unfold decodeCoordinate, get_string. rewrite H.
  pose proof (encodeCoordinate_split c) as Hs.
  destruct (encodeCoordinate c) as [|a s]; [discriminate Hs|].
  rewrite Hs. simpl. unfold rounded.
  rewrite Number_ToString, Number_space_ToString. reflexivity.
Qed.

Lemma decode_absent json key fallback :
  json !! key = None -> decodeCoordinate json key fallback = fallback.
Proof. intros H. unfold decodeCoordinate, get_string. rewrite H. reflexivity. Qed.

Lemma toJson_oldCoordinate this :
  toJson this !! "oldCoordinate"
  = (fun c => JString (encodeCoordinate c)) <$> oldCoordinate this.
Proof.
  unfold toJson, super_toJson.
  destruct (recordUndo this), (newCoordinate this), (oldCoordinate this), (group this);
    simpl; json_lookup; reflexivity.
Qed.

Lemma toJson_newCoordinate this :
  toJson this !! "newCoordinate"
  = (fun c => JString (encodeCoordinate c)) <$> newCoordinate this.
Proof.
  unfold toJson, super_toJson.
  destruct (recordUndo this), (newCoordinate this), (oldCoordinate this), (group this);
    simpl; json_lookup; reflexivity.
Qed.

Lemma toJson_strings this :
  get_string (toJson this) "blockId" = blockId this
  /\ get_string (toJson this) "oldParentId" = oldParentId this
  /\ get_string (toJson this) "oldInputName" = oldInputName this
  /\ get_string (toJson this) "newParentId" = newParentId this
  /\ get_string (toJson this) "newInputName" = newInputName this.
Proof.
  unfold get_string, toJson, super_toJson.
  destruct (recordUndo this), (newCoordinate this), (oldCoordinate this), (group this);
    simpl; json_lookup;
    destruct (blockId this), (oldParentId this), (oldInputName this),
             (newParentId this), (newInputName this); simpl; auto.
Qed.


(** Lookup of the keys [toJson] writes. *)
Lemma toJson_recordUndo this :
  toJson this !! "recordUndo"
  = if recordUndo this then None else Some (JBoolean false).
Proof.
  unfold toJson, super_toJson.
  destruct (recordUndo this), (newCoordinate this), (oldCoordinate this), (group this);
    simpl; json_lookup; reflexivity.
Qed.

(** C8 (as amended): [toJson] always writes the keys oldParentId,
    oldInputName, newParentId and newInputName, holding [undefined] when
    the field is undefined; oldCoordinate and newCoordinate are present
    exactly when defined, and recordUndo exactly when it is false. *)
Theorem toJson_keys this :
  toJson this !! "oldParentId" = Some (of_optional (oldParentId this))
  /\ toJson this !! "oldInputName" = Some (of_optional (oldInputName this))
  /\ toJson this !! "newParentId" = Some (of_optional (newParentId this))
  /\ toJson this !! "newInputName" = Some (of_optional (newInputName this))
  /\ toJson this !! "oldCoordinate"
     = (fun c => JString (encodeCoordinate c)) <$> oldCoordinate this
  /\ toJson this !! "newCoordinate"
     = (fun c => JString (encodeCoordinate c)) <$> newCoordinate this
  /\ toJson this !! "recordUndo"
     = if recordUndo this then None else Some (JBoolean false).
Proof.
  split_and!;
    try apply toJson_oldCoordinate; try apply toJson_newCoordinate;
    try apply toJson_recordUndo;
    unfold toJson, super_toJson;
    destruct (recordUndo this), (newCoordinate this), (oldCoordinate this), (group this);
    simpl; json_lookup; reflexivity.
Qed.

(** C8, as stated, fails: an event with no old parent still has the key
    oldParentId in its serialized form. *)
Lemma toJson_undefined_key_present :
  oldParentId (Sample.event "S") = None
  /\ toJson (Sample.event "S") !! "oldParentId" = Some JUndefined
  /\ "oldParentId" ∈ dom (toJson (Sample.event "S")).
Proof.
  split; [reflexivity|]. split; [vm_compute; reflexivity|].
  apply elem_of_dom. exists JUndefined. vm_compute. reflexivity.
Qed.

(** ** [isNull] *)

Lemma Coordinate_equals_eq a b : Coordinate_equals a b = true <-> a = b.
Proof.
  destruct a as [[x1 y1]|], b as [[x2 y2]|]; simpl; try (split; [discriminate|congruence]);
    [|tauto].
  rewrite andb_true_iff, !bool_decide_eq_true. split.
  - intros [-> ->]. reflexivity.
  - intros [= -> ->]. auto.
Qed.

(** C3: [isNull] is true exactly when the old and new parent ids, input
    names and coordinates are equal, undefined counting as equal to
    undefined; (10,10) against (10,10) is null, against (10,11) is not. *)
Theorem isNull_iff :
  (forall this,
     isNull this = true <->
     oldParentId this = newParentId this
     /\ oldInputName this = newInputName this
     /\ oldCoordinate this = newCoordinate this)
  /\ isNull Sample.stay = true
  /\ isNull Sample.nudge = false.
Proof.
  split.
  - intros this. unfold isNull.
    rewrite !andb_true_iff, !bool_decide_eq_true, Coordinate_equals_eq. tauto.
  - split; vm_compute; reflexivity.
Qed.

(** ** Running computations *)

Lemma read_ok {A} (f : Block -> A) w k b :
  blockDB w !! k = Some b -> read k f w = (Normal (f b), w).
Proof. intros H. unfold read. rewrite H. reflexivity. Qed.

Lemma getBlockById_some w k b :
  blockDB w !! k = Some b -> getBlockById k w = (Normal (Some k), w).
Proof. intros H. unfold getBlockById. rewrite H. reflexivity. Qed.

Lemma getBlockById_none w k :
  blockDB w !! k = None -> getBlockById k w = (Normal None, w).
Proof. intros H. unfold getBlockById. rewrite H. reflexivity. Qed.

Lemma getEventWorkspace_ok this w :
  Js.truthy (Some (wsId w)) = true -> workspaceId this = Some (wsId w) ->
  getEventWorkspace_ this w = (Normal tt, w).
Proof.
  intros Ht Hw. unfold getEventWorkspace_. rewrite Hw, Ht.
  rewrite bool_decide_eq_true_2 by reflexivity. reflexivity.
Qed.

Lemma bind_normal {A B} (m : M A) (k : A -> M B) w a w' :
  m w = (Normal a, w') -> (m ≫= k) w = k a w'.
Proof. intros H. unfold mbind, M_bind. rewrite H. reflexivity. Qed.

Lemma bind_throw {A B} (m : M A) (k : A -> M B) w msg w' :
  m w = (Throw msg, w') -> (m ≫= k) w = (Throw msg, w').
Proof. intros H. unfold mbind, M_bind. rewrite H. reflexivity. Qed.

Lemma getEventWorkspace_cases this w :
  getEventWorkspace_ this w = (Normal tt, w)
  \/ exists msg, getEventWorkspace_ this w = (Throw msg, w).
Proof. unfold getEventWorkspace_. destruct (_ && _); eauto. Qed.

Lemma truthy_some s : Js.truthy (Some s) = true -> exists c r, s = String c r.
Proof. destruct s; [discriminate | eauto]. Qed.

(** ** Missing references *)

(** C4: when the event's block id is defined and does not resolve, or
    the block resolves and the target parent id is defined and does not
    resolve, [run] writes one warning and completes normally, leaving the
    block database as it was.  An id is defined in the sense the code
    tests: it is a non-empty string. *)
Theorem run_missing_reference this (forward : bool) w b :
  Js.truthy (Some (wsId w)) = true ->
  workspaceId this = Some (wsId w) ->
  blockId this = Some b ->
  Js.truthy (Some b) = true ->
  (blockDB w !! b = None
   \/ exists p, (if forward then newParentId this else oldParentId this) = Some p
                /\ Js.truthy (Some p) = true
                /\ blockDB w !! p = None) ->
  exists msg,
    run this forward w
    = (Normal tt,
       {| wsId := wsId w; blockDB := blockDB w; console := console w ++ [msg] |}).
Proof.
  intros Hws Hid Hb Htb Hmiss. unfold run.
  rewrite (bind_normal _ _ _ _ _ (getEventWorkspace_ok this w Hws Hid)).
  rewrite Hb. destruct (truthy_some b Htb) as (c & r & ->).
  destruct (blockDB w !! String c r) as [blk|] eqn:Hblk.
  - destruct Hmiss as [Hmiss | (p & Hp & Htp & Hnone)]; [discriminate|].
    rewrite (bind_normal _ _ _ _ _ (getBlockById_some w _ blk Hblk)).
    rewrite Hp. destruct (truthy_some p Htp) as (c' & r' & ->).
    rewrite (bind_normal _ _ _ _ _ (getBlockById_none w _ Hnone)).
    eexists. reflexivity.
  - rewrite (bind_normal _ _ _ _ _ (getBlockById_none w _ Hblk)).
    eexists. reflexivity.
Qed.

(** ** Choice of connections *)

Lemma unplugIfConnected_lookup w k b :
  blockDB w !! k = Some b ->
  exists w', unplugIfConnected k w = (Normal tt, w')
             /\ wsId w' = wsId w /\ console w' = console w
             /\ blockDB w' !! k = Some (set_superior None b)
             /\ forall j, j <> k -> blockDB w' !! j = blockDB w !! j.
Proof.
  intros Hb. unfold unplugIfConnected, getParent.
  rewrite (bind_normal _ _ _ _ _ (read_ok _ w k b Hb)).
  destruct (superior b) as [l|] eqn:Hl; simpl.
  - eexists. split; [reflexivity|]. simpl. split_and!; try reflexivity.
    + rewrite lookup_alter_eq, Hb. reflexivity.
    + intros j Hj. rewrite lookup_alter_ne by congruence. reflexivity.
  - exists w. split; [reflexivity|]. split_and!; try reflexivity.
    rewrite Hb. f_equal. destruct b; simpl in *. subst. reflexivity.
Qed.

Lemma blockConnectionOf_eq w k b :
  blockDB w !! k = Some b ->
  blockConnectionOf k w
  = (Normal (pickBlockConnection
               (if hasOutput b then Some (mkConnection k OUTPUT_VALUE None) else None)
               (if hasPrevious b then Some (mkConnection k PREVIOUS_STATEMENT None) else None)
               (hasPrevious b && linkedBy ViaPrevious b)), w).
Proof.
  intros Hb. unfold blockConnectionOf, outputConnection, previousConnection.
  rewrite (bind_normal _ _ _ _ _ (read_ok _ w k b Hb)).
  rewrite (bind_normal _ _ _ _ _ (read_ok _ w k b Hb)).
  destruct (hasPrevious b); simpl.
  - unfold mbind, M_bind, isConnected. simpl. rewrite Hb. reflexivity.
  - reflexivity.
Qed.

(** C5 (as amended): for a block with both an output and a previous
    connection, the previous connection is the reconnection point exactly
    when it is connected, and the output connection otherwise; once [run]
    has unplugged the block, it is the output connection. *)
Theorem blockConnectionOf_both w k b :
  blockDB w !! k = Some b ->
  hasOutput b = true ->
  hasPrevious b = true ->
  blockConnectionOf k w
  = (Normal (Some (if linkedBy ViaPrevious b
                   then mkConnection k PREVIOUS_STATEMENT None
                   else mkConnection k OUTPUT_VALUE None)), w)
  /\ fst (blockConnectionOf k (snd (unplugIfConnected k w)))
     = Normal (Some (mkConnection k OUTPUT_VALUE None)).
Proof.
  intros Hb Ho Hp. split.
  - rewrite (blockConnectionOf_eq w k b Hb), Ho, Hp. simpl.
    destruct (linkedBy ViaPrevious b); reflexivity.
  - destruct (unplugIfConnected_lookup w k b Hb) as (w' & -> & _ & _ & Hb' & _).
    simpl. rewrite (blockConnectionOf_eq w' k _ Hb'). simpl.
    rewrite Ho, Hp. reflexivity.
Qed.

(** C5, as stated, fails: a free block with both connections is
    reconnected by its output connection, not its previous one. *)
Lemma run_prefers_output :
  hasOutput Sample.Both = true
  /\ hasPrevious Sample.Both = true
  /\ fst (blockConnectionOf "X" Sample.wsBoth)
     = Normal (Some (mkConnection "X" OUTPUT_VALUE None))
  /\ superior <$> blockDB (snd (run Sample.plugX true Sample.wsBoth)) !! "X"
     = Some (Some (mkLink ViaOutput "P" (InputSlot "A"))).
Proof. split_and!; vm_compute; reflexivity. Qed.


(** ** Captured locations *)

Lemma wf_block w k b :
  wf w = true -> blockDB w !! k = Some b ->
  Js.truthy (Some (wsId w)) = true
  /\ id b = k
  /\ Js.truthy (Some k) = true
  /\ forall l, superior b = Some l ->
       parent l <> k
       /\ side_ok b (via l) = true
       /\ exists p, blockDB w !! parent l = Some p /\ slot_ok p l = true.
Proof.
  unfold wf. rewrite andb_true_iff, bool_decide_eq_true.
  intros [Hws Hall] Hb. specialize (Hall k b Hb). unfold block_ok in Hall.
  rewrite !andb_true_iff, bool_decide_eq_true in Hall.
  destruct Hall as [[Hid Hk] Hl]. split_and!; try assumption.
  intros l El. rewrite El in Hl. unfold link_ok in Hl.
  rewrite !andb_true_iff, negb_true_iff, bool_decide_eq_false in Hl.
  destruct Hl as [[Hne Hside] Hp]. split_and!; try assumption.
  destruct (blockDB w !! parent l) as [p|]; [eauto | discriminate].
Qed.

Lemma find_input_with_block (b p : Block) (l : Link) :
  superior b = Some l ->
  slot_ok p l = true ->
  name <$> List.find
             (fun i => match connection i with
                       | Some _ => targets (parent l) (InputSlot (name i)) b
                       | None => false
                       end) (inputList p)
  = match slot l with InputSlot n => Some n | NextSlot => None end.
Proof.
  intros Hl Hok. unfold slot_ok in Hok. unfold targets. rewrite Hl.
  destruct (slot l) as [n|] eqn:Hs.
  - apply andb_prop in Hok as [_ Hok]. unfold findInput in Hok.
    rewrite (bool_decide_eq_true_2 (parent l = parent l)) by reflexivity.
    induction (inputList p) as [|h t IH]; simpl in *; [discriminate Hok|].
    destruct (decide (name h = n)) as [Hn|Hn].
    + rewrite (bool_decide_eq_true_2 _ Hn) in Hok.
      destruct (connection h) as [ty|]; [|discriminate Hok].
      rewrite bool_decide_eq_true_2 by congruence. simpl. congruence.
    + rewrite (bool_decide_eq_false_2 _ Hn) in Hok.
      assert (match connection h with
              | Some _ => bool_decide (InputSlot n = InputSlot (name h))
              | None => false
              end = false) as ->.
      { destruct (connection h); [|reflexivity].
        apply bool_decide_eq_false_2. congruence. }
      apply IH, Hok.
  - clear Hok. induction (inputList p) as [|h t IH]; [reflexivity|].
    cbn [List.find]. destruct (connection h); [|exact IH].
    rewrite (bool_decide_eq_false_2 (NextSlot = _)) by discriminate.
    rewrite andb_false_r. exact IH.
Qed.

Lemma getInputWithBlock_ok w k b p pb :
  blockDB w !! k = Some b -> blockDB w !! p = Some pb ->
  getInputWithBlock p k w
  = (Normal (List.find
               (fun i => match connection i with
                         | Some _ => targets p (InputSlot (name i)) b
                         | None => false
                         end) (inputList pb)), w).
Proof.
  intros Hb Hp. unfold getInputWithBlock.
  rewrite (bind_normal _ _ _ _ _ (read_ok (fun b => b) w k b Hb)).
  unfold read. rewrite Hp. reflexivity.
Qed.

Lemma currentLocation_local this w k b :
  Js.truthy (Some (wsId w)) = true ->
  workspaceId this = Some (wsId w) ->
  blockId this = Some k ->
  Js.truthy (Some k) = true ->
  blockDB w !! k = Some b ->
  (forall l, superior b = Some l ->
     exists p, blockDB w !! parent l = Some p
               /\ id p = parent l /\ slot_ok p l = true) ->
  currentLocation_ this w = (Normal (locationOf b), w).
Proof.
  intros Htw Hws Hid Htk Hb Hlink.
  unfold currentLocation_.
  rewrite (bind_normal _ _ _ _ _ (getEventWorkspace_ok this w Htw Hws)), Hid.
  destruct (truthy_some k Htk) as (c & r & ->).
  rewrite (bind_normal _ _ _ _ _ (getBlockById_some w _ b Hb)).
  unfold getParent. rewrite (bind_normal _ _ _ _ _ (read_ok _ w _ b Hb)).
  unfold locationOf. destruct (superior b) as [l|] eqn:Hl; simpl.
  - destruct (Hlink l eq_refl) as (p & Hp & Hpid & Hslot).
    rewrite (bind_normal _ _ _ _ _ (read_ok _ w _ p Hp)).
    rewrite (bind_normal _ _ _ _ _ (getInputWithBlock_ok w _ b _ p Hb Hp)).
    simpl. rewrite (find_input_with_block b p l Hl Hslot), Hpid. reflexivity.
  - unfold getRelativeToSurfaceXY.
    rewrite (bind_normal _ _ _ _ _ (read_ok _ w _ b Hb)). reflexivity.
Qed.

Lemma currentLocation_wf this w k b :
  wf w = true ->
  workspaceId this = Some (wsId w) ->
  blockId this = Some k ->
  blockDB w !! k = Some b ->
  currentLocation_ this w = (Normal (locationOf b), w).
Proof.
  intros Hwf Hws Hid Hb.
  destruct (wf_block w k b Hwf Hb) as (Htw & _ & Htk & Hlink).
  apply (currentLocation_local this w k b); try assumption.
  intros l Hl. destruct (Hlink l Hl) as (_ & _ & p & Hp & Hslot).
  destruct (wf_block w _ p Hwf Hp) as (_ & Hpid & _). eauto.
Qed.



(** C10: an event constructed from a shadow block has [recordUndo]
    false; constructed from any other block it keeps the record-undo
    flag current at construction.  Construction succeeds for a block of a
    well-formed workspace. *)
Theorem constructor_recordUndo :
  (forall ctx b w e w',
     constructor ctx (Some b) w = (Normal e, w') ->
     recordUndo e = (if shadow b then false else getRecordUndo ctx))
  /\ (forall ctx w b,
        wf w = true ->
        blockDB w !! id b = Some b ->
        exists e,
          constructor ctx (Some b) w = (Normal e, w)
          /\ recordUndo e = (if shadow b then false else getRecordUndo ctx)).
Proof.
  split.
  - intros ctx b w e w' H. unfold constructor, mbind, M_bind in H.
    destruct (currentLocation_ _ w) as [[loc|msg] w1]; [|discriminate H].
    injection H as <- _. destruct (shadow b); reflexivity.
  - intros ctx w b Hwf Hb. unfold constructor.
    set (e0 := if shadow b then _ else _).
    assert (Hws0 : workspaceId e0 = Some (wsId w)) by (subst e0; destruct (shadow b); reflexivity).
    assert (Hid0 : blockId e0 = Some (id b)) by (subst e0; destruct (shadow b); reflexivity).
    exists (set_old (locationOf b) e0).
    rewrite (bind_normal _ _ _ _ _ (currentLocation_wf e0 w _ b Hwf Hws0 Hid0 Hb)).
    split; [reflexivity|]. subst e0. destruct (shadow b); reflexivity.
Qed.

(** ** What [run] leaves unchanged *)

Section Preservation.
Context (R : Block -> Block -> Prop) `{!Reflexive R} `{!Transitive R}.

Lemma option_Forall2_refl' (o : option Block) : option_Forall2 R o o.
Proof. destruct o; constructor. reflexivity. Qed.

Lemma option_Forall2_trans' (a b c : option Block) :
  option_Forall2 R a b -> option_Forall2 R b c -> option_Forall2 R a c.
Proof.
  intros [x1 y1 H1|] H2; inversion H2; subst; constructor.
  etransitivity; eassumption.
Qed.

Lemma preserves_ret {A} (a : A) : preserves R (mret a).
Proof.
  intros w r w' [= <- <-]. split; [reflexivity|].
  intros j. apply option_Forall2_refl'.
Qed.

Lemma preserves_throw {A} msg : preserves R (@throw A msg).
Proof.
  intros w r w' [= <- <-]. split; [reflexivity|].
  intros j. apply option_Forall2_refl'.
Qed.

Lemma preserves_bind {A B} (m : M A) (k : A -> M B) :
  preserves R m -> (forall a, preserves R (k a)) -> preserves R (m ≫= k).
Proof.
  intros Hm Hk w r w' Hrun. unfold mbind, M_bind in Hrun.
  destruct (m w) as [[a|msg] w1] eqn:E.
  - destruct (Hm _ _ _ E) as [Hid1 H1]. destruct (Hk a _ _ _ Hrun) as [Hid2 H2].
    split; [congruence|]. intros j.
    eapply option_Forall2_trans'; [apply H1 | apply H2].
  - injection Hrun as <- <-. apply (Hm _ _ _ E).
Qed.

Lemma preserves_read {A} k (f : Block -> A) : preserves R (read k f).
Proof.
  intros w r w' Hrun. unfold read in Hrun.
  destruct (blockDB w !! k); injection Hrun as <- <-;
    (split; [reflexivity | intros j; apply option_Forall2_refl']).
Qed.

Lemma preserves_getBlockById k : preserves R (getBlockById k).
Proof.
  intros w r w' [= <- <-]. split; [reflexivity|].
  intros j. apply option_Forall2_refl'.
Qed.

Lemma preserves_isConnected c : preserves R (isConnected c).
Proof.
  intros w r w' [= <- <-]. split; [reflexivity|].
  intros j. apply option_Forall2_refl'.
Qed.

Lemma preserves_console_warn msg : preserves R (console_warn msg).
Proof.
  intros w r w' [= <- <-]. split; [reflexivity|].
  intros j. apply option_Forall2_refl'.
Qed.

Lemma preserves_getEventWorkspace_ this : preserves R (getEventWorkspace_ this).
Proof.
  intros w r w' Hrun. unfold getEventWorkspace_ in Hrun.
  destruct (_ && _); injection Hrun as <- <-;
    (split; [reflexivity | intros j; apply option_Forall2_refl']).
Qed.

Lemma preserves_modify_blocks f :
  (forall db j, option_Forall2 R (db !! j) (f db !! j)) ->
  preserves R (modify_blocks f).
Proof. intros Hf w r w' [= <- <-]. split; [reflexivity|]. intros j. apply Hf. Qed.

Lemma alter_related g k (db : gmap string Block) j :
  (forall b, R b (g b)) -> option_Forall2 R (db !! j) (alter g k db !! j).
Proof.
  intros Hg. destruct (decide (k = j)) as [->|Hne].
  - rewrite lookup_alter_eq. destruct (db !! j); constructor. apply Hg.
  - rewrite lookup_alter_ne by assumption. apply option_Forall2_refl'.
Qed.

Lemma fmap_related h (db : gmap string Block) j :
  (forall b, R b (h b)) -> option_Forall2 R (db !! j) ((h <$> db) !! j).
Proof.
  intros Hh. rewrite lookup_fmap. destruct (db !! j); constructor. apply Hh.
Qed.
End Preservation.

#[global] Instance sameShape_refl : Reflexive sameShape.
Proof. intros b. reflexivity. Qed.

#[global] Instance sameShape_trans : Transitive sameShape.
Proof. intros a b c. unfold sameShape. congruence. Qed.

#[global] Instance sameButLink_refl : Reflexive sameButLink.
Proof. intros b. split; reflexivity. Qed.

#[global] Instance sameButLink_trans : Transitive sameButLink.
Proof. intros a b c [H1 H2] [H3 H4]. split; congruence. Qed.


Lemma set_superior_sameButLink l b : sameButLink b (set_superior l b).
Proof. split; reflexivity. Qed.

Lemma detach_from_sameButLink p s b : sameButLink b (detach_from p s b).
Proof. unfold detach_from. destruct (targets p s b); split; reflexivity. Qed.


Lemma preserves_unplugIfConnected k : preserves sameButLink (unplugIfConnected k).
Proof.
  unfold unplugIfConnected, getParent, unplug.
  apply preserves_bind; try typeclasses eauto; [apply preserves_read; typeclasses eauto|].
  intros [p|]; [|apply preserves_ret; typeclasses eauto].
  apply preserves_modify_blocks. intros db j.
  apply alter_related; [typeclasses eauto|]. apply set_superior_sameButLink.
Qed.

Lemma preserves_connect this other : preserves sameButLink (connect this other).
Proof.
  unfold connect. destruct (side_of (type this)) as [s|];
    [|apply preserves_ret; typeclasses eauto].
  destruct (_ && _); [|apply preserves_ret; typeclasses eauto].
  apply preserves_modify_blocks. intros db j.
  eapply option_Forall2_trans'; [typeclasses eauto | |].
  - apply (fmap_related sameButLink (detach_from (sourceBlock other) (slot_of other))).
    apply detach_from_sameButLink.
  - apply alter_related; [typeclasses eauto|]. apply set_superior_sameButLink.
Qed.

Ltac preserves_step :=
  first
    [ apply preserves_ret; typeclasses eauto
    | apply preserves_throw; typeclasses eauto
    | apply preserves_read; typeclasses eauto
    | apply preserves_getBlockById; typeclasses eauto
    | apply preserves_isConnected; typeclasses eauto
    | apply preserves_console_warn; typeclasses eauto
    | apply preserves_getEventWorkspace_; typeclasses eauto
    | apply preserves_connect
    | apply preserves_unplugIfConnected ].

Tactic Notation "preserves_bind_as" simple_intropattern(x) :=
  apply preserves_bind; try typeclasses eauto; [ | intros x].

Lemma preserves_blockConnectionOf k : preserves sameButLink (blockConnectionOf k).
Proof.
  unfold blockConnectionOf, outputConnection, previousConnection.
  preserves_bind_as output; [preserves_step|].
  preserves_bind_as previous; [preserves_step|].
  preserves_bind_as connected; [destruct previous; preserves_step|].
  preserves_step.
Qed.

Lemma preserves_parentConnectionOf pb i ty :
  preserves sameButLink (parentConnectionOf pb i ty).
Proof.
  unfold parentConnectionOf, getInput, nextConnection.
  destruct i as [[|c r]|], pb as [p|]; try case_bool_decide; try preserves_step;
    (preserves_bind_as input; preserves_step).
Qed.

Lemma preserves_reconnect k pb i :
  preserves sameButLink (relocate k pb i None).
Proof.
  unfold relocate.
  preserves_bind_as u; [preserves_step|].
  preserves_bind_as blockConnection; [apply preserves_blockConnectionOf|].
  destruct blockConnection as [c|]; [|preserves_step].
  preserves_bind_as parentConnection; [apply preserves_parentConnectionOf|].
  destruct parentConnection; preserves_step.
Qed.




(** ** Moving and reconnecting *)




Lemma slot_ok_shape p p' l : shape p = shape p' -> slot_ok p l = slot_ok p' l.
Proof. unfold shape, slot_ok. intros [= _ _ _ _ -> ->]. reflexivity. Qed.

Lemma side_ok_shape b b' s : shape b = shape b' -> side_ok b s = side_ok b' s.
Proof. unfold shape, side_ok. intros [= _ _ -> -> _ _]. reflexivity. Qed.

Lemma findInput_name n l i : findInput n l = Some i -> name i = n.
Proof.
  unfold findInput. intros H. apply find_some in H as [_ H].
  apply bool_decide_eq_true in H. exact H.
Qed.

Lemma pick_unlinked k b s :
  superior b = None ->
  side_ok b s = true ->
  pickBlockConnection
    (if hasOutput b then Some (mkConnection k OUTPUT_VALUE None) else None)
    (if hasPrevious b then Some (mkConnection k PREVIOUS_STATEMENT None) else None)
    (hasPrevious b && linkedBy ViaPrevious b)
  = Some (mkConnection k (match s with
                          | ViaOutput => OUTPUT_VALUE
                          | ViaPrevious => PREVIOUS_STATEMENT
                          end) None).
Proof.
  intros Hsup Hside. unfold linkedBy. rewrite Hsup, andb_false_r.
  destruct s; simpl in Hside.
  - rewrite Hside. destruct (hasPrevious b); reflexivity.
  - apply andb_prop in Hside as [-> Hout]. apply negb_true_iff in Hout.
    rewrite Hout. reflexivity.
Qed.

Lemma parentConnectionOf_slot w l p :
  blockDB w !! parent l = Some p ->
  slot_ok p l = true ->
  exists ty,
    parentConnectionOf (Some (parent l))
      (match slot l with InputSlot n => Some n | NextSlot => None end)
      (match via l with
       | ViaOutput => OUTPUT_VALUE
       | ViaPrevious => PREVIOUS_STATEMENT
       end) w
    = (Normal (Some (mkConnection (parent l) ty
                       (match slot l with
                        | InputSlot n => Some n
                        | NextSlot => None
                        end))), w)
    /\ accepts ty (via l) = true.
Proof.
  intros Hp Hslot. unfold slot_ok in Hslot. unfold parentConnectionOf.
  destruct (slot l) as [n|].
  - apply andb_prop in Hslot as [Hn Hslot].
    destruct (findInput n (inputList p)) as [i|] eqn:Hi; [|discriminate Hslot].
    destruct (connection i) as [ty|] eqn:Hty; [|discriminate Hslot].
    pose proof (findInput_name _ _ _ Hi) as Hname.
    destruct (truthy_some n Hn) as (c & r & ->).
    exists ty. split; [|exact Hslot].
    unfold getInput. rewrite (bind_normal _ _ _ _ _ (read_ok _ w _ p Hp)).
    rewrite Hi. unfold inputConnection. simpl. rewrite Hty, Hname. reflexivity.
  - apply andb_prop in Hslot as [Hnext Hvia].
    apply bool_decide_eq_true in Hvia. rewrite Hvia.
    exists NEXT_STATEMENT. split; [|reflexivity].
    rewrite bool_decide_eq_true_2 by reflexivity.
    unfold nextConnection. rewrite (read_ok _ w _ p Hp), Hnext. reflexivity.
Qed.

Lemma connect_ok w k s pk ty pin :
  accepts ty s = true ->
  k <> pk ->
  connect (mkConnection k (match s with
                           | ViaOutput => OUTPUT_VALUE
                           | ViaPrevious => PREVIOUS_STATEMENT
                           end) None)
          (mkConnection pk ty pin) w
  = modify_blocks
      (fun db =>
         alter (set_superior
                  (Some (mkLink s pk (match pin with
                                      | Some n => InputSlot n
                                      | None => NextSlot
                                      end))))
               k
               (detach_from pk (match pin with
                                | Some n => InputSlot n
                                | None => NextSlot
                                end) <$> db)) w.
Proof.
  intros Hacc Hne. unfold connect. simpl.
  assert (side_of (match s with
                   | ViaOutput => OUTPUT_VALUE
                   | ViaPrevious => PREVIOUS_STATEMENT
                   end) = Some s) as -> by (destruct s; reflexivity).
  rewrite Hacc, bool_decide_eq_false_2 by assumption. reflexivity.
Qed.

(** Reconnecting a block to the connection its link [l] names puts the
    link back. *)
Lemma relocate_reconnect w k b l p :
  blockDB w !! k = Some b ->
  side_ok b (via l) = true ->
  parent l <> k ->
  blockDB w !! parent l = Some p ->
  slot_ok p l = true ->
  exists w',
    relocate k (Some (parent l))
             (match slot l with InputSlot n => Some n | NextSlot => None end)
             None w
    = (Normal tt, w')
    /\ blockDB w' !! k = Some (set_superior (Some l) b).
Proof.
  intros Hb Hside Hne Hp Hslot. unfold relocate.
  destruct (unplugIfConnected_lookup w k b Hb) as (w0 & Hrun & _ & _ & Hb0 & Hother).
  rewrite (bind_normal _ _ _ _ _ Hrun).
  rewrite (bind_normal _ _ _ _ _ (blockConnectionOf_eq w0 k _ Hb0)).
  rewrite (pick_unlinked k (set_superior None b) (via l) eq_refl Hside).
  assert (Hp0 : blockDB w0 !! parent l = Some p) by (rewrite Hother; assumption).
  destruct (parentConnectionOf_slot w0 l p Hp0 Hslot) as (ty & Hpc & Hacc).
  cbv beta iota. cbn [type].
  rewrite (bind_normal _ _ _ _ _ Hpc).
  rewrite (connect_ok w0 k (via l) (parent l) ty _ Hacc) by congruence.
  eexists. split; [reflexivity|]. simpl.
  rewrite lookup_alter_eq, lookup_fmap, Hb0. simpl.
  unfold detach_from, targets. simpl.
  destruct l as [s pk [n|]]; reflexivity.
Qed.

(** ** Going there and back *)







(** Equality of computed numbers, up to the proof that a rational is in
    lowest terms. *)
Ltac number_eq :=
  vm_compute;
  repeat match goal with
         | |- Js.Fin _ = Js.Fin _ => f_equal; apply Qc_is_canon; reflexivity
         | |- _ = _ => reflexivity
         | |- _ = _ => f_equal
         end.



(** ** Replaying a deserialized event *)

(** [run] reads the workspace id, the block id and the two halves of the
    event, and nothing else. *)
Lemma run_ext e e' forward :
  workspaceId e' = workspaceId e ->
  blockId e' = blockId e ->
  oldParentId e' = oldParentId e ->
  oldInputName e' = oldInputName e ->
  oldCoordinate e' = oldCoordinate e ->
  newParentId e' = newParentId e ->
  newInputName e' = newInputName e ->
  newCoordinate e' = newCoordinate e ->
  forall w, run e' forward w = run e forward w.
Proof.
  intros H1 H2 H3 H4 H5 H6 H7 H8 w. unfold run, getEventWorkspace_.
  rewrite H1, H2, H3, H4, H5, H6, H7, H8. reflexivity.
Qed.

Lemma rounded_integral c :
  integralCoordinate (Some c) -> rounded c = c.
Proof.
  destruct c as [cx cy]. unfold integralCoordinate, integral, rounded. simpl.
  intros [-> ->]. reflexivity.
Qed.

Lemma fromJson_toJson_coordinates ctx workspace this :
  oldCoordinate (fromJson ctx (toJson this) workspace None)
  = rounded <$> oldCoordinate this
  /\ newCoordinate (fromJson ctx (toJson this) workspace None)
     = rounded <$> newCoordinate this.
Proof.
  pose proof (toJson_oldCoordinate this) as Ho.
  pose proof (toJson_newCoordinate this) as Hn.
  unfold fromJson. simpl. split.
  - destruct (oldCoordinate this) as [c|]; simpl in *.
    + apply decode_encode, Ho.
    + apply decode_absent, Ho.
  - destruct (newCoordinate this) as [c|]; simpl in *.
    + apply decode_encode, Hn.
    + apply decode_absent, Hn.
Qed.

(** C2 (as amended): when the defined coordinates of an event have
    integer components, the event read back from its serialized form for
    the event's own workspace replays exactly as the event does, forward
    and backward. *)
Theorem fromJson_toJson_replay ctx workspace this :
  workspaceId this = Some workspace ->
  integralCoordinate (oldCoordinate this) ->
  integralCoordinate (newCoordinate this) ->
  forall forward w,
    run (fromJson ctx (toJson this) workspace None) forward w
    = run this forward w.
Proof.
  intros Hws Hold Hnew forward w.
  destruct (toJson_strings this) as (Hb & Hop & Hoi & Hnp & Hni).
  destruct (fromJson_toJson_coordinates ctx workspace this) as [Hoc Hnc].
  apply run_ext; try assumption.
  - symmetry. exact Hws.
  - rewrite Hoc. destruct (oldCoordinate this) as [c|]; [|reflexivity].
    simpl. f_equal. apply rounded_integral, Hold.
  - rewrite Hnc. destruct (newCoordinate this) as [c|]; [|reflexivity].
    simpl. f_equal. apply rounded_integral, Hnew.
Qed.

Lemma fromJson_toJson_replay_witness :
  run (fromJson Sample.ctx (toJson Sample.unplugB) "ws" None) true Sample.ws
  = run Sample.unplugB true Sample.ws
  /\ run (fromJson Sample.ctx (toJson Sample.unplugB) "ws" None) false Sample.ws
     = run Sample.unplugB false Sample.ws.
Proof.
  split; apply (fromJson_toJson_replay Sample.ctx "ws" Sample.unplugB);
    first [reflexivity | exact I | split; number_eq].
Defined.

(** C2, as stated, fails: serialization rounds coordinates, so an event
    that moves [S] to (1/2, 0) comes back as one that moves it to
    (1, 0). *)
Lemma fromJson_toJson_rounds :
  toJson Sample.halfS !! "newCoordinate" = Some (JString "1, 0")
  /\ xy_ <$> blockDB (snd (run Sample.halfS true Sample.ws)) !! "S"
     = Some (mkCoordinate (Js.Fin (Q2Qc (1 # 2))) (Js.of_Z 0))
  /\ xy_ <$> blockDB
               (snd (run (fromJson Sample.ctx (toJson Sample.halfS) "ws" None)
                         true Sample.ws)) !! "S"
     = Some (Sample.at_ 1 0)
  /\ run (fromJson Sample.ctx (toJson Sample.halfS) "ws" None) true Sample.ws
     <> run Sample.halfS true Sample.ws.
Proof.
  split_and!; try (vm_compute; reflexivity); try number_eq.
  intros H.
  apply (f_equal (fun r => match xy_ <$> blockDB (snd r) !! "S" with
                           | Some {| x := Js.Fin q |} => Some (Qden (this q))
                           | _ => None
                           end)) in H.
  vm_compute in H. discriminate H.
Qed.

(** ** Instances on the sample workspace *)

Lemma run_missing_reference_witness :
  exists msg,
    run (Sample.event "Z") true Sample.ws
    = (Normal tt,
       {| wsId := wsId Sample.ws; blockDB := blockDB Sample.ws;
          console := console Sample.ws ++ [msg] |}).
Proof.
  apply (run_missing_reference (Sample.event "Z") true Sample.ws "Z");
    [reflexivity | reflexivity | reflexivity | reflexivity
    | left; vm_compute; reflexivity].
Defined.

Lemma blockConnectionOf_both_witness :
  blockConnectionOf "X" Sample.wsBoth
  = (Normal (Some (if linkedBy ViaPrevious Sample.Both
                   then mkConnection "X" PREVIOUS_STATEMENT None
                   else mkConnection "X" OUTPUT_VALUE None)), Sample.wsBoth)
  /\ fst (blockConnectionOf "X" (snd (unplugIfConnected "X" Sample.wsBoth)))
     = Normal (Some (mkConnection "X" OUTPUT_VALUE None)).
Proof.
  apply (blockConnectionOf_both Sample.wsBoth "X" Sample.Both);
    [vm_compute; reflexivity | reflexivity | reflexivity].
Defined.




Lemma constructor_recordUndo_witness :
  exists e,
    constructor Sample.ctx (Some Sample.H) Sample.ws = (Normal e, Sample.ws)
    /\ recordUndo e = false.
Proof.
  apply (proj2 constructor_recordUndo Sample.ctx Sample.ws Sample.H);
    vm_compute; reflexivity.
Defined.

(** ** [run] keeps the workspace well formed *)

Lemma wf_iff w :
  wf w = true <->
  Js.truthy (Some (wsId w)) = true
  /\ forall k b, blockDB w !! k = Some b -> block_ok (blockDB w) k b = true.
Proof.
  unfold wf. rewrite andb_true_iff, bool_decide_eq_true. reflexivity.
Qed.

Lemma link_ok_shapes (db db' : gmap string Block) k b b' l :
  (forall j, option_Forall2 sameShape (db !! j) (db' !! j)) ->
  shape b = shape b' ->
  link_ok db k b l = link_ok db' k b' l.
Proof.
  intros Hall Hsh. unfold link_ok. rewrite (side_ok_shape _ _ _ Hsh).
  f_equal. specialize (Hall (parent l)).
  destruct Hall as [p p' Hp|]; [apply slot_ok_shape, Hp | reflexivity].
Qed.

Lemma wf_step w w' :
  wf w = true ->
  wsId w' = wsId w ->
  (forall j, option_Forall2 (relinked (blockDB w)) (blockDB w !! j) (blockDB w' !! j)) ->
  wf w' = true.
Proof.
  rewrite !wf_iff. intros [Hws Hall] Hid Hstep. split; [congruence|].
  assert (Hshapes : forall j, option_Forall2 sameShape (blockDB w !! j) (blockDB w' !! j)).
  { intros j. destruct (Hstep j) as [b b' [Hsh _]|]; constructor. exact Hsh. }
  intros k b' Hb'. pose proof (Hstep k) as Hk. rewrite Hb' in Hk.
  inversion Hk as [b ? [Hsh Hlink] Hb|]; subst. symmetry in Hb.
  specialize (Hall k b Hb). unfold block_ok in *.
  rewrite !andb_true_iff in *. destruct Hall as [[Hidb Hk'] Hl].
  assert (Hidk : id b = k) by (apply bool_decide_eq_true in Hidb; exact Hidb).
  assert (id b' = id b) as Hid' by (unfold shape in Hsh; congruence).
  split; [split; [rewrite Hid'; exact Hidb | exact Hk']|].
  destruct Hlink as [-> | [-> | (l & -> & Hok)]]; [reflexivity | |].
  - destruct (superior b) as [l|]; [|reflexivity].
    rewrite <- (link_ok_shapes _ _ k b b' l Hshapes Hsh). exact Hl.
  - rewrite <- (link_ok_shapes _ _ k b b' l Hshapes Hsh), <- Hidk. exact Hok.
Qed.

#[global] Instance relinked_refl db : Reflexive (relinked db).
Proof. intros b. split; [reflexivity | right; left; reflexivity]. Qed.

Lemma wf_console w msg :
  wf w = true ->
  wf {| wsId := wsId w; blockDB := blockDB w; console := console w ++ [msg] |} = true.
Proof. intros H. exact H. Qed.

Lemma wf_unplugIfConnected w k r w' :
  wf w = true -> unplugIfConnected k w = (r, w') -> wf w' = true.
Proof.
  intros Hwf Hrun. destruct (blockDB w !! k) as [b|] eqn:Hb.
  - destruct (unplugIfConnected_lookup w k b Hb) as (w0 & Hrun0 & Hid & _ & Hb0 & Hother).
    rewrite Hrun0 in Hrun. injection Hrun as <- <-.
    apply (wf_step w w0 Hwf Hid). intros j. destruct (decide (j = k)) as [->|Hne].
    + rewrite Hb, Hb0. constructor. split; [reflexivity | left; reflexivity].
    + rewrite (Hother j Hne). destruct (blockDB w !! j); constructor. reflexivity.
  - unfold unplugIfConnected, getParent, mbind, M_bind, read in Hrun.
    rewrite Hb in Hrun. injection Hrun as <- <-. exact Hwf.
Qed.

Lemma wf_moveBy w k dx dy r w' :
  wf w = true -> moveBy k dx dy w = (r, w') -> wf w' = true.
Proof.
  intros Hwf [= <- <-]. apply wf_step with (w := w); [exact Hwf | reflexivity |].
  intros j. simpl.
  apply alter_related; [typeclasses eauto|]. intros b.
  split; [reflexivity | right; left; reflexivity].
Qed.

Lemma wf_connect w this other r w' b p :
  wf w = true ->
  blockDB w !! sourceBlock this = Some b ->
  superior b = None ->
  (forall s, side_of (type this) = Some s -> side_ok b s = true) ->
  blockDB w !! sourceBlock other = Some p ->
  (forall s, side_of (type this) = Some s -> accepts (type other) s = true ->
             slot_ok p (mkLink s (sourceBlock other) (slot_of other)) = true) ->
  connect this other w = (r, w') ->
  wf w' = true.
Proof.
  intros Hwf Hb Hsup Hside Hp Hslot Hrun. unfold connect in Hrun.
  destruct (side_of (type this)) as [s|]; [|injection Hrun as <- <-; exact Hwf].
  destruct (accepts (type other) s) eqn:Hacc;
    [|injection Hrun as <- <-; exact Hwf].
  case_bool_decide as Hsame; simpl in Hrun; injection Hrun as <- <-; [exact Hwf|].
  destruct (proj1 (wf_iff w) Hwf) as [_ Hall].
  apply wf_step with (w := w); [exact Hwf | reflexivity |]. intros j. simpl.
  destruct (decide (j = sourceBlock this)) as [->|Hne].
  - rewrite lookup_alter_eq, lookup_fmap, Hb. simpl. constructor.
    split; [unfold detach_from; destruct (targets _ _ b); reflexivity|].
    right; right. eexists. split; [reflexivity|].
    specialize (Hall _ _ Hb). unfold block_ok in Hall.
    rewrite !andb_true_iff, bool_decide_eq_true in Hall.
    destruct Hall as [[Hidb _] _]. rewrite Hidb.
    unfold link_ok. simpl. rewrite Hp.
    rewrite (Hside s eq_refl), (Hslot s eq_refl Hacc).
    rewrite bool_decide_eq_false_2 by congruence. reflexivity.
  - rewrite lookup_alter_ne, lookup_fmap by congruence.
    destruct (blockDB w !! j) as [bj|]; constructor.
    unfold detach_from. destruct (targets _ _ bj).
    + split; [reflexivity | left; reflexivity].
    + reflexivity.
Qed.

Lemma pick_unlinked_inv k b bc :
  superior b = None ->
  pickBlockConnection
    (if hasOutput b then Some (mkConnection k OUTPUT_VALUE None) else None)
    (if hasPrevious b then Some (mkConnection k PREVIOUS_STATEMENT None) else None)
    (hasPrevious b && linkedBy ViaPrevious b)
  = Some bc ->
  sourceBlock bc = k
  /\ forall s, side_of (type bc) = Some s -> side_ok b s = true.
Proof.
  intros Hsup. unfold linkedBy. rewrite Hsup, andb_false_r.
  destruct (hasOutput b) eqn:Ho, (hasPrevious b) eqn:Hp; simpl;
    intros [= <-]; simpl; (split; [reflexivity|]); intros s [= <-]; simpl;
    rewrite ?Ho, ?Hp; reflexivity.
Qed.

Lemma parentConnectionOf_inv pb i ty w r w' :
  parentConnectionOf pb i ty w = (r, w') ->
  w' = w
  /\ forall pc, r = Normal (Some pc) ->
       exists p,
         blockDB w !! sourceBlock pc = Some p
         /\ forall s, side_of ty = Some s -> accepts (type pc) s = true ->
              slot_ok p (mkLink s (sourceBlock pc) (slot_of pc)) = true.
Proof.
  unfold parentConnectionOf. intros Hrun.
  assert (Hnext : (if bool_decide (ty = PREVIOUS_STATEMENT)
                   then match pb with
                        | Some parentBlock => nextConnection parentBlock
                        | None => throw "TypeError: Cannot read properties of undefined (reading 'nextConnection')"
                        end
                   else mret None) w = (r, w') ->
                  w' = w
                  /\ forall pc, r = Normal (Some pc) ->
                       exists p,
                         blockDB w !! sourceBlock pc = Some p
                         /\ forall s, side_of ty = Some s ->
                              accepts (type pc) s = true ->
                              slot_ok p (mkLink s (sourceBlock pc) (slot_of pc)) = true).
  { clear Hrun. intros Hrun. case_bool_decide as Hty.
    - destruct pb as [p|]; [|injection Hrun as <- <-; split; [reflexivity | discriminate]].
      unfold nextConnection, read in Hrun.
      destruct (blockDB w !! p) as [pblock|] eqn:Hp;
        injection Hrun as <- <-; (split; [reflexivity|]); [|discriminate].
      intros pc Hpc. destruct (hasNext pblock) eqn:Hn; [|discriminate Hpc].
      injection Hpc as <-. simpl. exists pblock. split; [exact Hp|].
      intros s Hs _. subst ty. injection Hs as <-.
      unfold slot_ok. simpl. rewrite Hn. reflexivity.
    - injection Hrun as <- <-. split; [reflexivity | discriminate]. }
  destruct i as [[|c n]|]; try (apply Hnext; exact Hrun). clear Hnext.
  destruct pb as [p|]; [|injection Hrun as <- <-; split; [reflexivity | discriminate]].
  unfold getInput, mbind, M_bind, read in Hrun.
  destruct (blockDB w !! p) as [pblock|] eqn:Hp;
    injection Hrun as <- <-; (split; [reflexivity|]); [|discriminate].
  intros pc Hpc.
  destruct (findInput (String c n) (inputList pblock)) as [inp|] eqn:Hi;
    [|discriminate Hpc].
  simpl in Hpc. unfold inputConnection in Hpc.
  destruct (connection inp) as [ty'|] eqn:Hty'; [|discriminate Hpc].
  injection Hpc as <-. simpl. exists pblock. split; [exact Hp|].
  intros s _ Hacc. unfold slot_ok, slot_of. simpl.
  rewrite (findInput_name _ _ _ Hi), Hi, Hty'. exact Hacc.
Qed.

Lemma wf_relocate w k b pb i c r w' :
  wf w = true ->
  blockDB w !! k = Some b ->
  relocate k pb i c w = (r, w') ->
  wf w' = true.
Proof.
  intros Hwf Hb Hrun. unfold relocate in Hrun.
  destruct (unplugIfConnected_lookup w k b Hb) as (w0 & Hrun0 & _ & _ & Hb0 & _).
  pose proof (wf_unplugIfConnected w k _ w0 Hwf Hrun0) as Hwf0.
  rewrite (bind_normal _ _ _ _ _ Hrun0) in Hrun.
  destruct c as [c|].
  - unfold getRelativeToSurfaceXY in Hrun.
    rewrite (bind_normal _ _ _ _ _ (read_ok _ w0 k _ Hb0)) in Hrun.
    eapply wf_moveBy; eassumption.
  - rewrite (bind_normal _ _ _ _ _ (blockConnectionOf_eq w0 k _ Hb0)) in Hrun.
    destruct (pickBlockConnection _ _ _) as [bc|] eqn:Hpick;
      [|injection Hrun as <- <-; exact Hwf0].
    destruct (pick_unlinked_inv k (set_superior None b) bc eq_refl Hpick)
      as [Hsrc Hside].
    unfold mbind, M_bind in Hrun.
    destruct (parentConnectionOf pb i (type bc) w0) as [rc w1] eqn:Hpc.
    destruct (parentConnectionOf_inv _ _ _ _ _ _ Hpc) as [-> Hinv].
    destruct rc as [[pc|]|msg].
    + destruct (Hinv pc eq_refl) as (p & Hp & Hslot).
      eapply (wf_connect w0 bc pc r w' _ p Hwf0); try eassumption.
      * rewrite Hsrc. exact Hb0.
      * reflexivity.
    + injection Hrun as <- <-. exact Hwf0.
    + injection Hrun as <- <-. exact Hwf0.
Qed.

(** Whatever its outcome, [run] leaves a well-formed workspace well
    formed. *)
Lemma run_preserves_wf this forward w r w' :
  wf w = true -> run this forward w = (r, w') -> wf w' = true.
Proof.
  intros Hwf Hrun. unfold run in Hrun.
  destruct (getEventWorkspace_cases this w) as [Hge | [msg Hge]];
    [rewrite (bind_normal _ _ _ _ _ Hge) in Hrun
    |rewrite (bind_throw _ _ _ _ _ Hge) in Hrun; injection Hrun as <- <-; exact Hwf].
  destruct (blockId this) as [[|c k]|]; try (injection Hrun as <- <-; exact Hwf).
  unfold mbind, M_bind, getBlockById in Hrun.
  destruct (blockDB w !! String c k) as [b|] eqn:Hb;
    [|injection Hrun as <- <-; exact Hwf].
  destruct (if forward then newParentId this else oldParentId this) as [[|c' p]|].
  - eapply wf_relocate; eassumption.
  - destruct (blockDB w !! String c' p);
      [eapply wf_relocate; eassumption | injection Hrun as <- <-; exact Hwf].
  - eapply wf_relocate; eassumption.
Qed.

(** * Further properties of [BlockMove] *)

(** ** From [run] to [relocate] *)

(** Once the workspace, the block and the target parent (when one is
    named) have resolved, [run] is the relocation of the block. *)
Lemma run_relocate this (forward : bool) w k b pb :
  Js.truthy (Some (wsId w)) = true ->
  workspaceId this = Some (wsId w) ->
  blockId this = Some k ->
  Js.truthy (Some k) = true ->
  blockDB w !! k = Some b ->
  (Js.truthy (if forward then newParentId this else oldParentId this) = false
   /\ pb = None
   \/ exists p pblock,
        (if forward then newParentId this else oldParentId this) = Some p
        /\ Js.truthy (Some p) = true
        /\ blockDB w !! p = Some pblock
        /\ pb = Some p) ->
  run this forward w
  = relocate k pb (if forward then newInputName this else oldInputName this)
             (if forward then newCoordinate this else oldCoordinate this) w.
Proof.
  intros Htw Hws Hid Htk Hb Hpb. unfold run.
  rewrite (bind_normal _ _ _ _ _ (getEventWorkspace_ok this w Htw Hws)), Hid.
  destruct (truthy_some k Htk) as (c & r & ->).
  rewrite (bind_normal _ _ _ _ _ (getBlockById_some w _ b Hb)).
  destruct Hpb as [[Hfalsy ->] | (p & pblock & Hp & Htp & Hpl & ->)].
  - destruct (if forward then newParentId this else oldParentId this) as [[|c' r']|];
      [reflexivity | discriminate Hfalsy | reflexivity].
  - rewrite Hp. destruct (truthy_some p Htp) as (c' & r' & ->).
    rewrite (bind_normal _ _ _ _ _ (getBlockById_some w _ pblock Hpl)). reflexivity.
Qed.



Lemma number_stuck c : Js.add Js.NaN (Js.sub c Js.NaN) = Js.NaN.
Proof. reflexivity. Qed.

(** ** What [run] leaves alone *)



(** ** Where [run] puts the block *)



(** X3: in a well-formed workspace, when the target half names a parent
    and a connection of it that exists and pairs with the connection the
    block connects by, and has no coordinate, [run] completes and leaves
    the block connected there, whatever it was connected to before;
    [currentLocation_] then reports the target half. *)
Theorem run_connects this (forward : bool) w k b l p :
  wf w = true ->
  workspaceId this = Some (wsId w) ->
  blockId this = Some k ->
  blockDB w !! k = Some b ->
  side_ok b (via l) = true ->
  parent l <> k ->
  blockDB w !! parent l = Some p ->
  slot_ok p l = true ->
  (if forward then newParentId this else oldParentId this) = Some (parent l) ->
  (if forward then newInputName this else oldInputName this)
  = match slot l with InputSlot n => Some n | NextSlot => None end ->
  (if forward then newCoordinate this else oldCoordinate this) = None ->
  exists w',
    run this forward w = (Normal tt, w')
    /\ blockDB w' !! k = Some (set_superior (Some l) b)
    /\ fst (currentLocation_ this w')
       = Normal {| parentId := Some (parent l);
                   inputName := match slot l with
                                | InputSlot n => Some n
                                | NextSlot => None
                                end;
                   coordinate := None |}.
Proof.
  intros Hwf Hws Hid Hb Hside Hne Hp Hslot Hpar Hin Hco.
  destruct (wf_block w k b Hwf Hb) as (Htw & _ & Htk & _).
  destruct (wf_block w _ p Hwf Hp) as (_ & Hpid & Htp & _).
  assert (Hrun : run this forward w
                 = relocate k (Some (parent l))
                            (match slot l with
                             | InputSlot n => Some n
                             | NextSlot => None
                             end) None w).
  { rewrite <- Hin, <- Hco.
    apply (run_relocate this forward w k b); try assumption.
    right. exists (parent l), p. auto. }
  destruct (relocate_reconnect w k b l p Hb Hside Hne Hp Hslot) as (w' & Hrel & Hb').
  exists w'. rewrite Hrun. split; [exact Hrel|]. split; [exact Hb'|].
  destruct (preserves_reconnect _ _ _ _ _ _ Hrel) as [Hws' Hall].
  assert (exists p', blockDB w' !! parent l = Some p' /\ shape p = shape p')
    as (p' & Hp' & Hsh).
  { specialize (Hall (parent l)). rewrite Hp in Hall.
    inversion Hall as [? ? [? ?]|]; subst; eauto. }
  rewrite (currentLocation_local this w' k _ ltac:(congruence) ltac:(congruence)
             Hid Htk Hb').
  - reflexivity.
  - simpl. intros l' [= <-]. exists p'. split; [exact Hp'|]. split.
    + unfold shape in Hsh. congruence.
    + rewrite <- (slot_ok_shape _ _ l Hsh). exact Hslot.
Qed.

Lemma run_connects_witness :
  exists w',
    run Sample.plugS true Sample.ws = (Normal tt, w')
    /\ blockDB w' !! "S"
       = Some (set_superior (Some (mkLink ViaPrevious "P" NextSlot)) Sample.S)
    /\ fst (currentLocation_ Sample.plugS w')
       = Normal {| parentId := Some "P"; inputName := None; coordinate := None |}.
Proof.
  apply (run_connects Sample.plugS true Sample.ws "S" Sample.S
                      (mkLink ViaPrevious "P" NextSlot) Sample.P);
    try reflexivity; try (vm_compute; reflexivity).
  discriminate.
Defined.

(** ** Targets that cannot be reached *)

Lemma pick_none k b :
  superior b = None -> hasOutput b = false -> hasPrevious b = false ->
  pickBlockConnection
    (if hasOutput b then Some (mkConnection k OUTPUT_VALUE None) else None)
    (if hasPrevious b then Some (mkConnection k PREVIOUS_STATEMENT None) else None)
    (hasPrevious b && linkedBy ViaPrevious b)
  = None.
Proof. intros _ -> ->. reflexivity. Qed.

(** The body of [relocate] after the block has been unplugged, for a
    target without coordinate and a block that connects by [s]. *)
Lemma relocate_unplugged w k b pb i s :
  blockDB w !! k = Some b ->
  side_ok b s = true ->
  exists w0,
    wsId w0 = wsId w
    /\ console w0 = console w
    /\ blockDB w0 !! k = Some (set_superior None b)
    /\ (forall j, j <> k -> blockDB w0 !! j = blockDB w !! j)
    /\ relocate k pb i None w
       = (parentConnection ←
            parentConnectionOf pb i (match s with
                                     | ViaOutput => OUTPUT_VALUE
                                     | ViaPrevious => PREVIOUS_STATEMENT
                                     end);
          match parentConnection with
          | Some parentConnection =>
              connect (mkConnection k (match s with
                                       | ViaOutput => OUTPUT_VALUE
                                       | ViaPrevious => PREVIOUS_STATEMENT
                                       end) None) parentConnection
          | None =>
              console_warn ("Can't connect to non-existent input: "
                            +:+ undefined_or i)
          end) w0.
Proof.
  intros Hb Hside. unfold relocate.
  destruct (unplugIfConnected_lookup w k b Hb)
    as (w0 & Hrun & Hid & Hcon & Hb0 & Hother).
  exists w0. split_and!; try assumption.
  rewrite (bind_normal _ _ _ _ _ Hrun).
  rewrite (bind_normal _ _ _ _ _ (blockConnectionOf_eq w0 k _ Hb0)).
  rewrite (pick_unlinked k (set_superior None b) s eq_refl Hside).
  reflexivity.
Qed.

(** X4: a target half with neither parent id, input name nor coordinate,
    as an event has before [recordNew], is not a no-op.  [run] unplugs
    the block and touches no other block; then a block with an output
    connection gets the warning about a non-existent input, and a block
    without one makes [run] throw. *)
Theorem run_empty_target this (forward : bool) w k b :
  Js.truthy (Some (wsId w)) = true ->
  workspaceId this = Some (wsId w) ->
  blockId this = Some k ->
  Js.truthy (Some k) = true ->
  blockDB w !! k = Some b ->
  (if forward then newParentId this else oldParentId this) = None ->
  (if forward then newInputName this else oldInputName this) = None ->
  (if forward then newCoordinate this else oldCoordinate this) = None ->
  exists r w',
    run this forward w = (r, w')
    /\ blockDB w' !! k = Some (set_superior None b)
    /\ (forall j, j <> k -> blockDB w' !! j = blockDB w !! j)
    /\ (if hasOutput b
        then r = Normal tt
             /\ console w'
                = (console w
                   ++ ["Can't connect to non-existent input: undefined"])%list
        else (exists msg, r = Throw msg) /\ console w' = console w).
Proof.
  intros Htw Hws Hid Htk Hb Hp Hi Hc.
  assert (Hrun : run this forward w = relocate k None None None w).
  { rewrite <- Hi, <- Hc. apply (run_relocate this forward w k b); try assumption.
    left. rewrite Hp. auto. }
  rewrite Hrun. clear Hrun.
  destruct (hasOutput b) eqn:Ho.
  - destruct (relocate_unplugged w k b None None ViaOutput Hb Ho)
      as (w0 & Hid0 & Hcon0 & Hb0 & Hoth0 & ->).
    eexists _, _. split; [reflexivity|]. simpl.
    split_and!; try assumption; [reflexivity|]. rewrite Hcon0. reflexivity.
  - destruct (hasPrevious b) eqn:Hpr.
    + assert (Hside : side_ok b ViaPrevious = true)
        by (simpl; rewrite Hpr, Ho; reflexivity).
      destruct (relocate_unplugged w k b None None ViaPrevious Hb Hside)
        as (w0 & Hid0 & Hcon0 & Hb0 & Hoth0 & ->).
      eexists _, _. split; [reflexivity|]. simpl.
      split_and!; eauto.
    + unfold relocate.
      destruct (unplugIfConnected_lookup w k b Hb)
        as (w0 & Hrun & Hid0 & Hcon0 & Hb0 & Hoth0).
      rewrite (bind_normal _ _ _ _ _ Hrun).
      rewrite (bind_normal _ _ _ _ _ (blockConnectionOf_eq w0 k _ Hb0)).
      rewrite (pick_none k (set_superior None b) eq_refl Ho Hpr).
      eexists _, _. split; [reflexivity|]. simpl. split_and!; eauto.
Qed.

Lemma run_empty_target_witness :
  exists r w',
    run (Sample.event "B") true Sample.ws = (r, w')
    /\ blockDB w' !! "B" = Some (set_superior None Sample.B)
    /\ (forall j, j <> "B" -> blockDB w' !! j = blockDB Sample.ws !! j)
    /\ (if hasOutput Sample.B
        then r = Normal tt
             /\ console w'
                = (console Sample.ws
                   ++ ["Can't connect to non-existent input: undefined"])%list
        else (exists msg, r = Throw msg) /\ console w' = console Sample.ws).
Proof.
  apply (run_empty_target (Sample.event "B") true Sample.ws "B" Sample.B);
    try reflexivity; vm_compute; reflexivity.
Defined.

(** X5: a missing input is found only after the block has been unplugged.
    When the target parent resolves but has no input of the given name,
    or that input has no connection, and there is no target coordinate,
    [run] completes with the warning about the input and leaves the
    block parentless; no other block changes. *)
Theorem run_missing_input this (forward : bool) w k b p pblock n :
  Js.truthy (Some (wsId w)) = true ->
  workspaceId this = Some (wsId w) ->
  blockId this = Some k ->
  Js.truthy (Some k) = true ->
  blockDB w !! k = Some b ->
  hasOutput b || hasPrevious b = true ->
  (if forward then newParentId this else oldParentId this) = Some p ->
  Js.truthy (Some p) = true ->
  blockDB w !! p = Some pblock ->
  (if forward then newInputName this else oldInputName this) = Some n ->
  Js.truthy (Some n) = true ->
  (findInput n (inputList pblock)) ≫= connection = None ->
  (if forward then newCoordinate this else oldCoordinate this) = None ->
  exists w',
    run this forward w = (Normal tt, w')
    /\ console w'
       = (console w ++ ["Can't connect to non-existent input: " +:+ n])%list
    /\ blockDB w' !! k = Some (set_superior None b)
    /\ forall j, j <> k -> blockDB w' !! j = blockDB w !! j.
Proof.
  intros Htw Hws Hid Htk Hb Hconn Hp Htp Hpl Hi Htn Hnone Hc.
  assert (Hrun : run this forward w = relocate k (Some p) (Some n) None w).
  { rewrite <- Hi, <- Hc. apply (run_relocate this forward w k b); try assumption.
    right. exists p, pblock. auto. }
  rewrite Hrun. clear Hrun.
  assert (exists s, side_ok b s = true) as [s Hside].
  { destruct (hasOutput b) eqn:Ho; [exists ViaOutput; exact Ho|].
    exists ViaPrevious. simpl in *. rewrite Hconn, Ho. reflexivity. }
  destruct (relocate_unplugged w k b (Some p) (Some n) s Hb Hside)
    as (w0 & Hid0 & Hcon0 & Hb0 & Hoth0 & ->).
  assert (exists pblock0, blockDB w0 !! p = Some pblock0
                          /\ inputList pblock0 = inputList pblock)
    as (pblock0 & Hpl0 & Hin0).
  { destruct (decide (p = k)) as [->|Hne].
    - exists (set_superior None b). split; [exact Hb0|]. simpl. congruence.
    - exists pblock. rewrite (Hoth0 p Hne). auto. }
  destruct (truthy_some n Htn) as (c & r & ->).
  unfold parentConnectionOf, getInput.
  rewrite (bind_normal _ _ _ _ _
             (bind_normal _ _ _ _ _ (read_ok _ w0 p pblock0 Hpl0))).
  rewrite Hin0.
  assert ((findInput (String c r) (inputList pblock)) ≫= inputConnection p = None)
    as ->.
  { destruct (findInput (String c r) (inputList pblock)) as [i|]; [|reflexivity].
    simpl in *. unfold inputConnection. rewrite Hnone. reflexivity. }
  eexists. split; [reflexivity|]. simpl. split_and!; try assumption.
  rewrite Hcon0. reflexivity.
Qed.

Lemma run_missing_input_witness :
  exists w',
    run Sample.plugNowhere true Sample.ws = (Normal tt, w')
    /\ console w'
       = (console Sample.ws
          ++ ["Can't connect to non-existent input: " +:+ "NOPE"])%list
    /\ blockDB w' !! "B" = Some (set_superior None Sample.B)
    /\ forall j, j <> "B" -> blockDB w' !! j = blockDB Sample.ws !! j.
Proof.
  apply (run_missing_input Sample.plugNowhere true Sample.ws "B" Sample.B
                           "P" Sample.P "NOPE");
    try reflexivity; vm_compute; reflexivity.
Defined.

(** ** Events without a usable block *)

(** X6: an event whose block id is undefined or empty makes [run] (in
    either direction), [currentLocation_] and [recordNew] throw the
    block-id error, and the workspace is left as it was. *)
Theorem blockId_undefined_throws this w :
  Js.truthy (Some (wsId w)) = true ->
  workspaceId this = Some (wsId w) ->
  Js.truthy (blockId this) = false ->
  (forall forward, run this forward w = (Throw blockIdUndefined, w))
  /\ currentLocation_ this w = (Throw blockIdUndefined, w)
  /\ recordNew this w = (Throw blockIdUndefined, w).
Proof.
  intros Htw Hws Hid.
  assert (Hloc : currentLocation_ this w = (Throw blockIdUndefined, w)).
  { unfold currentLocation_.
    rewrite (bind_normal _ _ _ _ _ (getEventWorkspace_ok this w Htw Hws)).
    destruct (blockId this) as [[|c r]|]; [reflexivity | discriminate Hid | reflexivity]. }
  split_and!.
  - intros forward. unfold run.
    rewrite (bind_normal _ _ _ _ _ (getEventWorkspace_ok this w Htw Hws)).
    destruct (blockId this) as [[|c r]|]; [reflexivity | discriminate Hid | reflexivity].
  - exact Hloc.
  - unfold recordNew. apply (bind_throw _ _ _ _ _ Hloc).
Qed.

Lemma blockId_undefined_throws_witness :
  (forall forward,
     run Sample.noBlock forward Sample.ws = (Throw blockIdUndefined, Sample.ws))
  /\ currentLocation_ Sample.noBlock Sample.ws
     = (Throw blockIdUndefined, Sample.ws)
  /\ recordNew Sample.noBlock Sample.ws = (Throw blockIdUndefined, Sample.ws).
Proof.
  apply (blockId_undefined_throws Sample.noBlock Sample.ws); reflexivity.
Defined.

(** X7: where [run] only warns about a block that does not resolve,
    capturing a location throws: [currentLocation_] and [recordNew] throw
    for a block id that is not in the workspace, and so does the
    constructor for a block that is not in it; the workspace is left as
    it was. *)
Theorem missing_block_throws ctx w k :
  Js.truthy (Some (wsId w)) = true ->
  Js.truthy (Some k) = true ->
  blockDB w !! k = None ->
  (forall this, workspaceId this = Some (wsId w) -> blockId this = Some k ->
     (exists msg, currentLocation_ this w = (Throw msg, w))
     /\ (exists msg, recordNew this w = (Throw msg, w)))
  /\ (forall b, id b = k -> exists msg, constructor ctx (Some b) w = (Throw msg, w)).
Proof.
  intros Htw Htk Hnone.
  assert (Hloc : forall e, workspaceId e = Some (wsId w) -> blockId e = Some k ->
            currentLocation_ e w
            = (Throw "The block associated with the block move event could not be found", w)).
  { intros e Hws Hid. unfold currentLocation_.
    rewrite (bind_normal _ _ _ _ _ (getEventWorkspace_ok e w Htw Hws)), Hid.
    destruct (truthy_some k Htk) as (c & r & ->).
    rewrite (bind_normal _ _ _ _ _ (getBlockById_none w _ Hnone)). reflexivity. }
  split.
  - intros this Hws Hid. split.
    + eexists. apply Hloc; assumption.
    + eexists. unfold recordNew. apply (bind_throw _ _ _ _ _ (Hloc this Hws Hid)).
  - intros b Hb. eexists. unfold constructor.
    apply bind_throw. apply Hloc.
    + destruct (shadow b); reflexivity.
    + destruct (shadow b); simpl; congruence.
Qed.

Lemma missing_block_throws_witness :
  (exists msg, currentLocation_ (Sample.event "Z") Sample.ws = (Throw msg, Sample.ws))
  /\ (exists msg, recordNew (Sample.event "Z") Sample.ws = (Throw msg, Sample.ws)).
Proof.
  apply (proj1 (missing_block_throws Sample.ctx Sample.ws "Z"
                  eq_refl eq_refl ltac:(vm_compute; reflexivity)));
    reflexivity.
Defined.

(** ** Recorded events *)

(** X8: an event constructed from a block and finalized by [recordNew]
    with nothing moved in between is null. *)
Theorem unmoved_event_isNull ctx w b :
  wf w = true ->
  blockDB w !! id b = Some b ->
  exists e e',
    constructor ctx (Some b) w = (Normal e, w)
    /\ recordNew e w = (Normal e', w)
    /\ isNull e' = true.
Proof.
  intros Hwf Hb. unfold constructor.
  set (e0 := if shadow b then _ else _).
  assert (Hws0 : workspaceId e0 = Some (wsId w))
    by (subst e0; destruct (shadow b); reflexivity).
  assert (Hid0 : blockId e0 = Some (id b))
    by (subst e0; destruct (shadow b); reflexivity).
  exists (set_old (locationOf b) e0), (set_new (locationOf b) (set_old (locationOf b) e0)).
  rewrite (bind_normal _ _ _ _ _ (currentLocation_wf e0 w _ b Hwf Hws0 Hid0 Hb)).
  split; [reflexivity|]. split.
  - unfold recordNew.
    rewrite (bind_normal _ _ _ _ _
               (currentLocation_wf (set_old (locationOf b) e0) w _ b Hwf Hws0 Hid0 Hb)).
    reflexivity.
  - unfold isNull. simpl. rewrite !bool_decide_eq_true_2 by reflexivity.
    apply Coordinate_equals_eq. reflexivity.
Qed.

Lemma unmoved_event_isNull_witness :
  exists e e',
    constructor Sample.ctx (Some Sample.B) Sample.ws = (Normal e, Sample.ws)
    /\ recordNew e Sample.ws = (Normal e', Sample.ws)
    /\ isNull e' = true.
Proof.
  apply (unmoved_event_isNull Sample.ctx Sample.ws Sample.B);
    vm_compute; reflexivity.
Defined.

(** X9: a null event replays the same way in both directions, on every
    workspace. *)
Theorem isNull_replay this :
  isNull this = true ->
  forall w, run this true w = run this false w.
Proof.
  unfold isNull. rewrite !andb_true_iff, !bool_decide_eq_true, Coordinate_equals_eq.
  intros [[Hp Hi] Hc] w. unfold run. simpl. rewrite Hp, Hi, Hc. reflexivity.
Qed.

Lemma isNull_replay_witness :
  run Sample.stay true Sample.ws = run Sample.stay false Sample.ws.
Proof.
  apply (isNull_replay Sample.stay). vm_compute. reflexivity.
Defined.




(** ** More on the serialized form *)

Lemma toJson_group this :
  get_string (toJson this) "group"
  = match group this with EmptyString => None | g => Some g end.
Proof.
  unfold get_string, toJson, super_toJson.
  destruct (recordUndo this), (newCoordinate this), (oldCoordinate this), (group this);
    simpl; json_lookup; reflexivity.
Qed.

(** X11: what survives [toJson] followed by the static [fromJson].  The
    block id, parent ids, input names and group come back unchanged, the
    workspace id is that of the workspace given, and a defined coordinate
    comes back rounded.  An undefined coordinate is not cleared: the
    event deserialized into keeps the coordinate it had.  [recordUndo]
    comes back only when it is false; a true flag is not written, and
    the result keeps the flag of the event deserialized into. *)
Theorem fromJson_toJson_fields ctx workspace event this :
  let base := match event with
              | Some e => e
              | None => BlockBase_new ctx workspace None
              end in
  let e' := fromJson ctx (toJson this) workspace event in
  blockId e' = blockId this
  /\ oldParentId e' = oldParentId this
  /\ oldInputName e' = oldInputName this
  /\ newParentId e' = newParentId this
  /\ newInputName e' = newInputName this
  /\ group e' = group this
  /\ workspaceId e' = Some workspace
  /\ oldCoordinate e' = match oldCoordinate this with
                        | Some c => Some (rounded c)
                        | None => oldCoordinate base
                        end
  /\ newCoordinate e' = match newCoordinate this with
                        | Some c => Some (rounded c)
                        | None => newCoordinate base
                        end
  /\ recordUndo e' = (if recordUndo this then recordUndo base else false).
Proof.
  intros base e'.
  destruct (toJson_strings this) as (Hb & Hop & Hoi & Hnp & Hni).
  pose proof (toJson_oldCoordinate this) as Ho.
  pose proof (toJson_newCoordinate this) as Hn.
  pose proof (toJson_recordUndo this) as Hr.
  pose proof (toJson_group this) as Hg.
  subst e'. unfold fromJson. simpl. fold base.
  split_and!; try assumption; try reflexivity.
  - rewrite Hg. destruct (group this); reflexivity.
  - destruct (oldCoordinate this) as [c|]; simpl in Ho.
    + apply decode_encode, Ho.
    + apply decode_absent, Ho.
  - destruct (newCoordinate this) as [c|]; simpl in Hn.
    + apply decode_encode, Hn.
    + apply decode_absent, Hn.
  - rewrite Hr. destruct (recordUndo this); reflexivity.
Qed.

Lemma Math_round_of_rounded r : Js.Math_round (Js.of_rounded r) = r.
Proof.
  destruct r as [z|]; [|reflexivity]. simpl. f_equal.
  unfold Qfloor, Qplus. simpl.
  rewrite Z.mul_1_r. symmetry. apply (Z.div_unique _ _ z 1); lia.
Qed.

Lemma rounded_rounded c : rounded (rounded c) = rounded c.
Proof. unfold rounded. simpl. rewrite !Math_round_of_rounded. reflexivity. Qed.

Lemma encodeCoordinate_rounded c : encodeCoordinate (rounded c) = encodeCoordinate c.
Proof. unfold encodeCoordinate, rounded. simpl. rewrite !Math_round_of_rounded. reflexivity. Qed.

(** [toJson] reads the group, the block id, the two halves and
    [recordUndo], and nothing else. *)
Lemma toJson_ext e e' :
  group e' = group e ->
  blockId e' = blockId e ->
  oldParentId e' = oldParentId e ->
  oldInputName e' = oldInputName e ->
  encodeCoordinate <$> oldCoordinate e' = encodeCoordinate <$> oldCoordinate e ->
  newParentId e' = newParentId e ->
  newInputName e' = newInputName e ->
  encodeCoordinate <$> newCoordinate e' = encodeCoordinate <$> newCoordinate e ->
  recordUndo e' = recordUndo e ->
  toJson e' = toJson e.
Proof.
  intros H1 H2 H3 H4 H5 H6 H7 H8 H9. unfold toJson, super_toJson.
  rewrite H1, H2, H3, H4, H6, H7, H9.
  destruct (oldCoordinate e') as [c1|], (oldCoordinate e) as [c2|];
    try discriminate H5;
    destruct (newCoordinate e') as [d1|], (newCoordinate e) as [d2|];
    try discriminate H8; simpl in H5, H8;
    try (injection H5 as ->); try (injection H8 as ->); reflexivity.
Qed.

(** X12: serializing is stable from the second time on.  The event read
    back from a serialized form serializes to that same form, coordinates
    included, provided a true [recordUndo] flag meets a context that
    records undo. *)
Theorem toJson_fromJson_toJson ctx workspace this :
  (recordUndo this = true -> getRecordUndo ctx = true) ->
  toJson (fromJson ctx (toJson this) workspace None) = toJson this.
Proof.
  intros Hflag.
  destruct (fromJson_toJson_coordinates ctx workspace this) as [Hoc Hnc].
  destruct (toJson_strings this) as (Hb & Hop & Hoi & Hnp & Hni).
  pose proof (toJson_recordUndo this) as Hr.
  pose proof (toJson_group this) as Hg.
  apply toJson_ext; try assumption.
  - simpl. rewrite Hg. destruct (group this); reflexivity.
  - rewrite Hoc. destruct (oldCoordinate this); simpl; [|reflexivity].
    f_equal. apply encodeCoordinate_rounded.
  - rewrite Hnc. destruct (newCoordinate this); simpl; [|reflexivity].
    f_equal. apply encodeCoordinate_rounded.
  - simpl. rewrite Hr. destruct (recordUndo this); [|reflexivity].
    simpl. apply Hflag. reflexivity.
Qed.

Lemma toJson_fromJson_toJson_witness :
  toJson (fromJson Sample.ctx (toJson Sample.halfS) "ws" None)
  = toJson Sample.halfS.
Proof.
  apply (toJson_fromJson_toJson Sample.ctx "ws" Sample.halfS). reflexivity.
Defined.





(** ** Replaying an event twice *)











(** ** Recording, undoing and redoing a move *)


